(** * Deadlines table, grid bar and failed-icon chart plugin of the Airflow UI

    A shallow embedding of
    - [pages/Run/Deadlines.tsx]  (sortDeadlines, handleSort, the Deadlines view),
    - the grid [Bar] component   (barHeightPx, the icons and their handlers),
    - the duration chart plugin  (createFailedIconPlugin / afterDatasetsDraw),
    together with the part of ECMAScript and of the browser they rest on:
    Number results of a comparator, [Array.prototype.sort], [Date] parsing,
    IEEE 754 doubles, and the drawing state of the 2D canvas. *)

From Stdlib Require Import ZArith Floats List String Ascii Bool Lia.
From Stdlib Require Import Permutation Sorting.Sorted Structures.OrderedTypeEx.
Import ListNotations.

Set Implicit Arguments.
Set Warnings "-inexact-float".

(** * ECMAScript values the components compute with *)

Module Js.

Local Open Scope Z_scope.

(** A Number as a sort comparator produces it here: time values are integral
    milliseconds, booleans coerce to 0 or 1, and every subtraction of two such
    values keeps its sign and its zero under double rounding, which is all
    that sorting observes.  [NaN] is kept apart: it is what an invalid Date
    yields and it is absorbing for subtraction and negation. *)
Inductive Number : Type :=
| NaN
| Num (z : Z).

Definition sub (a b : Number) : Number :=
  match a, b with
  | Num x, Num y => Num (x - y)
  | _, _ => NaN
  end.

Definition neg (a : Number) : Number :=
  match a with
  | Num x => Num (- x)
  | NaN => NaN
  end.

(** [Number(b)] for a boolean [b]. *)
Definition ofBool (b : bool) : Number := Num (Z.b2z b).

Definition isNaN (a : Number) : bool :=
  match a with NaN => true | Num _ => false end.

(** ** Array.prototype.sort

    The abstract operation SortCompare(x, y) of ECMA-262 for two defined
    elements: call the comparator, and read a NaN result as +0. *)
Definition SortCompare {A} (comparefn : A -> A -> Number) (x y : A) : Z :=
  match comparefn x y with
  | NaN => 0
  | Num v => v
  end.

(** ECMA-262's "consistent comparator" for the values of an array, on the
    results SortCompare hands to the sorting algorithm:
    a =CF a; a =CF b implies b =CF a; and =CF, <CF and >CF are transitive. *)
Record consistent_on {A} (c : A -> A -> Z) (l : list A) : Prop := {
  cf_refl : forall a, In a l -> c a a = 0;
  cf_sym : forall a b, In a l -> In b l -> c a b = 0 -> c b a = 0;
  cf_eq_trans : forall a b d, In a l -> In b l -> In d l ->
      c a b = 0 -> c b d = 0 -> c a d = 0;
  cf_lt_trans : forall a b d, In a l -> In b l -> In d l ->
      c a b < 0 -> c b d < 0 -> c a d < 0;
  cf_gt_trans : forall a b d, In a l -> In b l -> In d l ->
      c a b > 0 -> c b d > 0 -> c a d > 0
}.

(** The records of [l] that tie with [x]: one equivalence class of the
    comparator, in list order. *)
Definition ties {A} (c : A -> A -> Z) (x : A) (l : list A) : list A :=
  filter (fun y => c x y =? 0) l.

(** What ECMA-262 (2019 and later) promises of [sort] called with a
    comparator that does not throw: the result holds the same elements; and
    when the comparator is consistent for them, the result is in ascending
    comparator order and the sort is stable, elements that tie keeping their
    original order.  For a comparator that is not consistent the order is
    implementation-defined.  ECMA-262 words the condition for comparators
    that never return NaN; the algorithm reaches the comparator through
    SortCompare only, so the promise is stated on what SortCompare returns. *)
Record sort_conforms {A}
    (sort : (A -> A -> Number) -> list A -> list A) : Prop := {
  sort_permutation : forall f l, Permutation (sort f l) l;
  sort_sorted : forall f l, consistent_on (SortCompare f) l ->
      StronglySorted (fun a b => SortCompare f a b <= 0) (sort f l);
  sort_stable : forall f l, consistent_on (SortCompare f) l ->
      forall x, In x l ->
      ties (SortCompare f) x (sort f l) = ties (SortCompare f) x l
}.

(** The host the components run on: the three built-ins whose result
    ECMA-262 leaves to the implementation ([Date.parse] outside the date-time
    string format, the collation behind [String.prototype.localeCompare], and
    the algorithm of [Array.prototype.sort]). *)
Record Engine : Type := {
  Date_parse : string -> Number;
  localeCompare : string -> string -> Z;
  Array_sort : forall A : Type, (A -> A -> Number) -> list A -> list A
}.

(** ECMA-262 requires [localeCompare] to be a consistent comparator on all
    strings, and [sort] to conform as above. *)
Record conforming (E : Engine) : Prop := {
  engine_sort : forall A : Type, sort_conforms (@Array_sort E A);
  engine_collation : forall l, consistent_on (localeCompare E) l
}.

(** *** A reference engine: stable insertion sort *)

Section InsertionSort.
Context {A : Type}.
Variable comparefn : A -> A -> Number.

Fixpoint insert (x : A) (l : list A) : list A :=
  match l with
  | [] => [x]
  | y :: l' =>
      if SortCompare comparefn x y <=? 0 then x :: l else y :: insert x l'
  end.

Definition isort (l : list A) : list A := fold_right insert [] l.

End InsertionSort.

(** *** The path V8 takes for arrays shorter than 64 elements

    V8 sorts with TimSort; below 64 elements the minimal run length is the
    array length, so the whole sort is: find the initial run
    (CountAndMakeRun, a strictly descending run being reversed), then insert
    every later element by binary search (BinaryInsertionSort).  No merge
    takes place.  The engine [v8_short] below runs this path at every
    length; it is V8's sort for arrays below 64 elements. *)

Section V8Short.
Context {A : Type}.
Variable comparefn : A -> A -> Number.

Fixpoint run_tail (descending : bool) (previous : A) (l : list A)
  : list A * list A :=
  match l with
  | [] => ([], [])
  | current :: l' =>
      let order := SortCompare comparefn current previous in
      if (if descending then 0 <=? order else order <? 0)
      then ([], l)
      else let (run, rest) := run_tail descending current l' in
           (current :: run, rest)
  end.

Definition CountAndMakeRun (l : list A) : list A * list A :=
  match l with
  | [] => ([], [])
  | [x] => ([x], [])
  | x0 :: x1 :: l' =>
      let descending := SortCompare comparefn x1 x0 <? 0 in
      let (run, rest) := run_tail descending x1 l' in
      let whole := x0 :: x1 :: run in
      (if descending then rev whole else whole, rest)
  end.

Fixpoint insertion_point (fuel : nat) (pivot : A) (work : list A)
    (left right : nat) : nat :=
  match fuel with
  | O => left
  | S fuel' =>
      if (left <? right)%nat then
        let mid := (left + Nat.div2 (right - left))%nat in
        if SortCompare comparefn pivot (nth mid work pivot) <? 0
        then insertion_point fuel' pivot work left mid
        else insertion_point fuel' pivot work (S mid) right
      else left
  end.

Definition binary_insert (work : list A) (pivot : A) : list A :=
  let p := insertion_point (S (List.length work)) pivot work 0
             (List.length work) in
  firstn p work ++ pivot :: skipn p work.

Definition BinaryInsertionSort (run rest : list A) : list A :=
  fold_left binary_insert rest run.

Definition v8_short_sort (l : list A) : list A :=
  let (run, rest) := CountAndMakeRun l in BinaryInsertionSort run rest.

End V8Short.

(** ** Date.parse on the UTC form of the date-time string format

    [YYYY-MM-DDTHH:mm:ssZ], with ECMA-262's day and time arithmetic.  Any
    other string is an invalid date for this parser. *)

Definition msPerDay : Z := 86400000.

Definition DayFromYear (y : Z) : Z :=
  365 * (y - 1970) + (y - 1969) / 4 - (y - 1901) / 100 + (y - 1601) / 400.

Definition InLeapYear (y : Z) : bool :=
  ((y mod 4 =? 0) && negb (y mod 100 =? 0)) || (y mod 400 =? 0).

Definition DaysInMonth (y m : Z) : Z :=
  if m =? 2 then (if InLeapYear y then 29 else 28)
  else if (m =? 4) || (m =? 6) || (m =? 9) || (m =? 11) then 30
  else 31.

(** Days of the year before month [m] (1 to 12). *)
Fixpoint days_before (y : Z) (m : nat) : Z :=
  match m with
  | O => 0
  | S O => 0
  | S m' => days_before y m' + DaysInMonth y (Z.of_nat m')
  end.

Definition MakeDay (year month date : Z) : Z :=
  DayFromYear year + days_before year (Z.to_nat month) + date - 1.

Definition MakeTime (hour min sec ms : Z) : Z :=
  hour * 3600000 + min * 60000 + sec * 1000 + ms.

Definition MakeDate (day time : Z) : Z := day * msPerDay + time.

Definition digit (c : ascii) : option Z :=
  let n := Z.of_nat (nat_of_ascii c) in
  if (48 <=? n) && (n <=? 57) then Some (n - 48) else None.

Fixpoint number (cs : list ascii) (acc : Z) : option Z :=
  match cs with
  | [] => Some acc
  | c :: cs' =>
      match digit c with
      | Some d => number cs' (10 * acc + d)
      | None => None
      end
  end.

Definition fields (cs : list ascii) : option (list Z) :=
  match cs with
  | [y1; y2; y3; y4; "-"; m1; m2; "-"; d1; d2; "T";
     h1; h2; ":"; n1; n2; ":"; s1; s2; "Z"]%char =>
      match number [y1; y2; y3; y4] 0, number [m1; m2] 0, number [d1; d2] 0,
            number [h1; h2] 0, number [n1; n2] 0, number [s1; s2] 0 with
      | Some y, Some m, Some d, Some h, Some n, Some s => Some [y; m; d; h; n; s]
      | _, _, _, _, _, _ => None
      end
  | _ => None
  end.

Definition parse_utc (text : string) : Number :=
  match fields (list_ascii_of_string text) with
  | Some [y; m; d; h; n; s] =>
      if (1 <=? m) && (m <=? 12) && (1 <=? d) && (d <=? DaysInMonth y m)
         && (h <=? 23) && (n <=? 59) && (s <=? 59)
      then Num (MakeDate (MakeDay y m d) (MakeTime h n s 0))
      else NaN
  | _ => NaN
  end.

(** ** Comparison of strings by code unit, the collation of a host with no
    locale data. *)
Definition code_unit_compare (a b : string) : Z :=
  match String.compare a b with
  | Eq => 0
  | Lt => -1
  | Gt => 1
  end.

(** The engine the closed examples run on. *)
Definition reference : Engine := {|
  Date_parse := parse_utc;
  localeCompare := code_unit_compare;
  Array_sort := @isort
|}.

(** V8 on short arrays. *)
Definition v8_short : Engine := {|
  Date_parse := parse_utc;
  localeCompare := code_unit_compare;
  Array_sort := @v8_short_sort
|}.

End Js.

(** * pages/Run/Deadlines.tsx *)

Module Deadlines.
Import Js.

Local Open Scope Z_scope.
Local Open Scope string_scope.

(** What a timestamp field of a fetched record holds at run time: nothing
    (the property is absent, [undefined]), JSON [null], or a string. *)
Inductive Timestamp : Type :=
| Absent
| Null
| Text (s : string).

(** Modelled from the spec: the [DeadlineResponse] type of openapi/requests is
    not part of the sources; its fields are those of the spec's
    DeadlineRecord, under the names Deadlines.tsx reads them by.  The type is
    erased at run time, so the two timestamp fields carry whatever the
    response holds. *)
Record DeadlineResponse : Type := {
  id : Z;
  alert_name : option string;
  alert_description : option string;
  deadline_time : Timestamp;
  created_at : Timestamp;
  missed : bool
}.

(** [type SortField = "alert_name" | "created_at" | "deadline_time" | "missed"] *)
Inductive SortField : Type :=
| by_alert_name
| by_created_at
| by_deadline_time
| by_missed.

(** [type SortDir = "asc" | "desc"] *)
Inductive SortDir : Type :=
| asc
| desc.

Definition SortField_eqb (a b : SortField) : bool :=
  match a, b with
  | by_alert_name, by_alert_name
  | by_created_at, by_created_at
  | by_deadline_time, by_deadline_time
  | by_missed, by_missed => true
  | _, _ => false
  end.

Section WithEngine.
Variable E : Engine.

(** [new Date(value).getTime()]: [undefined] gives an invalid date, [null]
    converts to the number 0, a string is parsed. *)
Definition getTime (value : Timestamp) : Number :=
  match value with
  | Absent => NaN
  | Null => Num 0
  | Text s => Date_parse E s
  end.

(** [value ?? fallback] *)
Definition nullish (value : option string) (fallback : string) : string :=
  match value with
  | Some s => s
  | None => fallback
  end.

(** The arrow function handed to [sort] by [sortDeadlines]. *)
Definition comparator (field : SortField) (dir : SortDir)
    (left right : DeadlineResponse) : Number :=
  let comparison :=
    match field with
    | by_deadline_time =>
        sub (getTime (deadline_time left)) (getTime (deadline_time right))
    | by_created_at =>
        sub (getTime (created_at left)) (getTime (created_at right))
    | by_missed => sub (ofBool (missed left)) (ofBool (missed right))
    | by_alert_name =>
        let leftName := nullish (alert_name left) "" in
        let rightName := nullish (alert_name right) "" in
        Num (localeCompare E leftName rightName)
    end in
  match dir with
  | desc => neg comparison
  | asc => comparison
  end.

(** [sortDeadlines]: sorts a copy, the argument is left as it was. *)
Definition sortDeadlines (deadlines : list DeadlineResponse)
    (field : SortField) (dir : SortDir) : list DeadlineResponse :=
  Array_sort E (comparator field dir) deadlines.

(** The three [useState] cells of the component. *)
Record State : Type := {
  sortField : SortField;
  sortDir : SortDir;
  showMissedOnly : bool
}.

Definition initial : State :=
  {| sortField := by_deadline_time; sortDir := asc; showMissedOnly := false |}.

Definition handleSort (field : SortField) (st : State) : State :=
  if SortField_eqb (sortField st) field then
    {| sortField := sortField st;
       sortDir := match sortDir st with asc => desc | desc => asc end;
       showMissedOnly := showMissedOnly st |}
  else
    {| sortField := field; sortDir := asc;
       showMissedOnly := showMissedOnly st |}.

(** The checkbox's [onChange]. *)
Definition setShowMissedOnly (checked : bool) (st : State) : State :=
  {| sortField := sortField st; sortDir := sortDir st;
     showMissedOnly := checked |}.

(** [useParams()] and the argument of
    [useDeadlinesServiceGetDagRunDeadlines] built from it on every render;
    the query is fetched again only when this argument changes. *)
Record Params : Type := {
  dagId : option string;
  runId : option string
}.

Definition request (p : Params) (st : State) : string * string :=
  (nullish (dagId p) "", nullish (runId p) "").

(** What the hook hands back. *)
Record Query : Type := {
  data : option (list DeadlineResponse);
  isLoading : bool
}.

(** What the component returns. *)
Inductive View : Type :=
| Skeleton
| NoDeadlines
| Table (rows : list DeadlineResponse).

Definition Deadlines (st : State) (q : Query) : View :=
  if isLoading q then Skeleton
  else
    match data q with
    | None => NoDeadlines
    | Some [] => NoDeadlines
    | Some deadlines =>
        let filteredDeadlines :=
          if showMissedOnly st then filter missed deadlines else deadlines in
        Table (sortDeadlines filteredDeadlines (sortField st) (sortDir st))
    end.

(** The records on display. *)
Definition rows_of (v : View) : list DeadlineResponse :=
  match v with
  | Table rows => rows
  | Skeleton | NoDeadlines => []
  end.

(** The two arrows of [sortIndicator], a space and U+25B2 or U+25BC, as
    UTF-8. *)
Definition ARROW_UP : string :=
  String " " (String "226" (String "150" (String "178" EmptyString))).
Definition ARROW_DOWN : string :=
  String " " (String "226" (String "150" (String "188" EmptyString))).

(** [sortIndicator]: what a column header shows after its label. *)
Definition sortIndicator (st : State) (field : SortField) : string :=
  if SortField_eqb (sortField st) field
  then match sortDir st with asc => ARROW_UP | desc => ARROW_DOWN end
  else "".

(** One [Table.Row] of the body: its React key ([String(deadline.id)], kept
    as the id), the five cells, and the badge with its palette and the
    translation key of its label. *)
Record Row : Type := {
  key : Z;
  name_cell : option string;
  deadline_cell : Timestamp;
  badge_palette : string;
  badge_label : string;
  created_cell : Timestamp;
  description_cell : option string
}.

Definition renderRow (deadline : DeadlineResponse) : Row :=
  {| key := id deadline;
     name_cell := alert_name deadline;
     deadline_cell := deadline_time deadline;
     badge_palette := if missed deadline then "red" else "green";
     badge_label := if missed deadline then "deadlines.missed"
                    else "deadlines.onTrack";
     created_cell := created_at deadline;
     description_cell := alert_description deadline |}.

(** The rows of [Table.Body]: [sortedDeadlines.map(...)]. *)
Definition body (v : View) : list Row := map renderRow (rows_of v).

End WithEngine.

(** ** Vocabulary of the statements *)

(** The timestamp the sort reads parses to a time value (always so for the
    two fields that are not timestamps). *)
Definition key_parses (E : Engine) (field : SortField) (r : DeadlineResponse)
  : bool :=
  match field with
  | by_deadline_time => negb (isNaN (getTime E (deadline_time r)))
  | by_created_at => negb (isNaN (getTime E (created_at r)))
  | by_alert_name | by_missed => true
  end.

(** The sort key of a record: the number or the string the comparator
    compares. *)
Inductive Key : Type :=
| KNumber (n : Number)
| KString (s : string).

Definition sort_key (E : Engine) (field : SortField) (r : DeadlineResponse)
  : Key :=
  match field with
  | by_deadline_time => KNumber (getTime E (deadline_time r))
  | by_created_at => KNumber (getTime E (created_at r))
  | by_missed => KNumber (ofBool (missed r))
  | by_alert_name => KString (nullish (alert_name r) "")
  end.

(** The integer the comparator reads off a record whose key is a number. *)
Definition zkey (E : Engine) (field : SortField) (r : DeadlineResponse) : Z :=
  match sort_key E field r with
  | KNumber (Num z) => z
  | _ => 0
  end.

(** Equality of keys; NaN equals nothing, itself included. *)
Definition Key_eqb (a b : Key) : bool :=
  match a, b with
  | KNumber (Num x), KNumber (Num y) => Z.eqb x y
  | KString s, KString t => String.eqb s t
  | _, _ => false
  end.

(** [a] stands somewhere before [b] in [l]. *)
Definition precedes {A} (a b : A) (l : list A) : Prop :=
  exists l1 l2 l3, l = (l1 ++ a :: l2 ++ b :: l3)%list.

(** Records without a time value in the sort field come first. *)
Fixpoint unparsed_first (E : Engine) (field : SortField)
    (l : list DeadlineResponse) : bool :=
  match l with
  | [] => true
  | r :: l' =>
      if key_parses E field r then forallb (key_parses E field) l'
      else unparsed_first E field l'
  end.

(** A list is ordered as if records without a time value had the earliest
    timestamp: they lead in ascending order and trail in descending order. *)
Definition ordered_as_earliest (E : Engine) (field : SortField) (dir : SortDir)
    (l : list DeadlineResponse) : bool :=
  match dir with
  | asc => unparsed_first E field l
  | desc => unparsed_first E field (rev l)
  end.

(** Two records stand in the order of the sort: by key for the numeric
    fields, by the collation for names; the other way round when
    descending. *)
Definition in_order (E : Engine) (field : SortField) (dir : SortDir)
    (a b : DeadlineResponse) : Prop :=
  let ascending x y :=
    match field with
    | by_alert_name =>
        localeCompare E (nullish (alert_name x) "") (nullish (alert_name y) "")
        <= 0
    | _ => zkey E field x <= zkey E field y
    end in
  match dir with
  | asc => ascending a b
  | desc => ascending b a
  end.

(** No two records of the list compare equal on the sort field: each one
    ties with itself only. *)
Definition no_ties (E : Engine) (field : SortField)
    (l : list DeadlineResponse) : bool :=
  forallb
    (fun x =>
       (List.length (ties (SortCompare (comparator E field asc)) x l) <=? 1)
       %nat) l.

(** ** Records to run the component on *)

Definition fixture (i : Z) (due : Timestamp) (m : bool) : DeadlineResponse :=
  {| id := i; alert_name := None; alert_description := None;
     deadline_time := due; created_at := Absent; missed := m |}.

Definition january (day : string) : Timestamp :=
  Text ("2024-01-0" ++ day ++ "T00:00:00Z").

(** One record with a deadline, one without. *)
Definition due : DeadlineResponse := fixture 1 (january "1") false.
Definition bare : DeadlineResponse := fixture 2 Absent false.
Definition garbled : DeadlineResponse := fixture 3 (Text "soon") false.

(** Three records without a deadline among four with one; records 5 and 7
    are due on the same day. *)
Definition mixed : list DeadlineResponse :=
  [ fixture 1 Absent false; fixture 2 Absent false;
    fixture 3 (january "9") false; fixture 4 Absent false;
    fixture 5 (january "5") false; fixture 6 (january "1") false;
    fixture 7 (january "5") false ].

(** Three records due on three days. *)
Definition spread : list DeadlineResponse :=
  [ fixture 1 (january "3") false; fixture 2 (january "1") true;
    fixture 3 (january "2") false ].

(** Records 2 and 3 are due on the same day and both missed. *)
Definition dated : list DeadlineResponse :=
  [ fixture 1 (january "3") false; fixture 2 (january "2") true;
    fixture 3 (january "2") true; fixture 4 (january "1") false ].

End Deadlines.

(** * The grid [Bar] component *)

Module Bar.

Local Open Scope float_scope.

(** Numbers are ECMAScript Numbers: IEEE 754 doubles with their rounded
    operations, the two infinities and NaN. *)
Definition BAR_HEIGHT : float := 100.
Definition ICON_GAP_PX : float := 4.
Definition ICON_HEIGHT_PX : float := 16.

(** [const barHeightPx = max > 0 ? (run.duration / max) * BAR_HEIGHT : 0];
    [max > 0] is false when [max] is NaN. *)
Definition barHeightPx (max duration : float) : float :=
  if 0 <? max then duration / max * BAR_HEIGHT else 0.

(** The Number printed into the [height] handed to [GridButton], the bar
    itself: the same quotient, without the guard. *)
Definition gridButtonHeight (max duration : float) : float :=
  duration / max * BAR_HEIGHT.

(** Modelled from the spec: the [GridRunsResponse] type of openapi/requests
    is not part of the sources; these are the fields [Bar] reads for the
    icons. *)
Record GridRunsResponse : Type := {
  run_id : string;
  state : option string;
  duration : float;
  has_missed_deadline : option bool
}.

Section Icons.
(** [String.prototype.toLowerCase], left to the host. *)
Variable toLowerCase : string -> string.

(** The search parameters of the current location, as [useSearchParams]
    hands them over, and [URLSearchParams.prototype.toString], which
    serialises them; both are the host's. *)
Variable URLSearchParams : Type.
Variable toString : URLSearchParams -> string.

(** [(run.state ?? "").toLowerCase() === "failed"] *)
Definition isFailed (run : GridRunsResponse) : bool :=
  String.eqb
    (toLowerCase (match state run with Some s => s | None => "" end))
    "failed".

(** [Boolean(run.has_missed_deadline)] *)
Definition hasMissedDeadline (run : GridRunsResponse) : bool :=
  match has_missed_deadline run with
  | Some b => b
  | None => false
  end.

Definition failedIconBottom (max : float) (run : GridRunsResponse) : float :=
  barHeightPx max (duration run) + ICON_GAP_PX.

Definition deadlineIconBottom (max : float) (run : GridRunsResponse) : float :=
  if isFailed run then failedIconBottom max run + ICON_HEIGHT_PX
  else failedIconBottom max run.

Inductive Icon : Type :=
| DeadlineIcon
| FailedIcon.

(** The icon buttons the component renders, in document order, each with
    the Number printed into the [bottom] offset of its [Center]. *)
Definition icons (max : float) (run : GridRunsResponse) : list (Icon * float) :=
  ((if hasMissedDeadline run
    then [(DeadlineIcon, deadlineIconBottom max run)] else [])
   ++ (if isFailed run then [(FailedIcon, failedIconBottom max run)] else []))
  %list.

Local Open Scope string_scope.

(** [navigate({ pathname, search })]: where a click on an icon leads.
    [dagId] is the route parameter (the empty string when absent); the
    [search] handed on is [searchParams.toString()]. *)
Record Location : Type := {
  pathname : string;
  search : string
}.

Definition handleFailedIconClick (dagId : string)
    (searchParams : URLSearchParams) (run : GridRunsResponse) : Location :=
  {| pathname := "/dags/" ++ dagId ++ "/runs/" ++ run_id run;
     search := toString searchParams |}.

Definition handleDeadlineIconClick (dagId : string)
    (searchParams : URLSearchParams) (run : GridRunsResponse) : Location :=
  {| pathname := "/dags/" ++ dagId ++ "/runs/" ++ run_id run ++ "/deadlines";
     search := toString searchParams |}.

(** The hover context shared by the bars holds the hovered run id, if any;
    [runId] is the route parameter of the selected run. *)
Definition handleMouseEnter (run : GridRunsResponse)
    (hoveredRunId : option string) : option string :=
  Some (run_id run).

Definition handleMouseLeave (hoveredRunId : option string) : option string :=
  None.

Definition isHovered (hoveredRunId : option string) (run : GridRunsResponse)
  : bool :=
  match hoveredRunId with
  | Some h => String.eqb h (run_id run)
  | None => false
  end.

Definition isSelected (runId : option string) (run : GridRunsResponse)
  : bool :=
  match runId with
  | Some r => String.eqb r (run_id run)
  | None => false
  end.

(** The [bg] of the outer box; [None] is [undefined]. *)
Definition bg (runId hoveredRunId : option string) (run : GridRunsResponse)
  : option string :=
  if isSelected runId run then Some "brand.emphasized"
  else if isHovered hoveredRunId run then Some "brand.muted"
  else None.

End Icons.

(** Lower case of the ASCII letters, for running the component. *)
Fixpoint ascii_lower (s : string) : string :=
  match s with
  | EmptyString => EmptyString
  | String ch rest =>
      let n := nat_of_ascii ch in
      String (if ((65 <=? n) && (n <=? 90))%nat then ascii_of_nat (n + 32)
              else ch)
        (ascii_lower rest)
  end.

(** The application/x-www-form-urlencoded serialiser of the URL standard,
    over the UTF-8 bytes of names and values, for running the component:
    letters, digits and [*-._] stay, a space becomes [+], every other byte
    is percent-encoded. *)
Definition hex_char (n : nat) : ascii :=
  ascii_of_nat (if (n <? 10)%nat then 48 + n else 55 + n).

Definition urlencoded_byte (ch : ascii) : string :=
  let n := nat_of_ascii ch in
  if (((48 <=? n) && (n <=? 57)) || ((65 <=? n) && (n <=? 90))
      || ((97 <=? n) && (n <=? 122))
      || (n =? 42) || (n =? 45) || (n =? 46) || (n =? 95))%nat
  then String ch EmptyString
  else if (n =? 32)%nat then "+"%string
  else String "%"
         (String (hex_char (n / 16))
            (String (hex_char (n mod 16)) EmptyString)).

Fixpoint urlencoded_string (s : string) : string :=
  match s with
  | EmptyString => EmptyString
  | String ch rest => (urlencoded_byte ch ++ urlencoded_string rest)%string
  end.

Fixpoint urlencoded (params : list (string * string)) : string :=
  match params with
  | [] => EmptyString
  | (name, value) :: rest =>
      (urlencoded_string name ++ "=" ++ urlencoded_string value
       ++ match rest with
          | [] => EmptyString
          | _ => "&" ++ urlencoded rest
          end)%string
  end.

End Bar.

(** * The failed-icon plugin of the duration chart *)

Module FailedIconPlugin.

Local Open Scope float_scope.
Local Open Scope string_scope.

(** ** The 2D canvas context *)

(** Coordinates are ECMAScript Numbers: IEEE 754 doubles. *)
Inductive Segment : Type :=
| MoveTo (x y : float)
| LineTo (x y : float)
| ClosePath.

(** The canvas ignores a call of [moveTo], [lineTo] or [fillText] with a
    coordinate that is infinite or NaN. *)
Definition finite (x y : float) : bool := is_finite x && is_finite y.

(** [moveTo] starts a subpath.  [lineTo] on a path with no subpath starts
    one at its point.  [closePath] does nothing to a path with no
    subpath. *)
Definition path_moveTo (x y : float) (p : list Segment) : list Segment :=
  if finite x y then p ++ [MoveTo x y] else p.

Definition path_lineTo (x y : float) (p : list Segment) : list Segment :=
  if finite x y then
    match p with
    | [] => [MoveTo x y]
    | _ => p ++ [LineTo x y]
    end
  else p.

Definition path_closePath (p : list Segment) : list Segment :=
  match p with
  | [] => []
  | _ => p ++ [ClosePath]
  end.

(** A rendered point; [getProps(["x", "y"], true)] reads its final
    position. *)
Record Element : Type := {
  x : float;
  y : float
}.

Section Canvas.

(** A fill or stroke style as the canvas holds it, and the host's parser of
    CSS colours.  Assigning to [fillStyle] or [strokeStyle] a string that is
    no colour is ignored: the style stays what it was. *)
Variable Style : Type.
Variable parseColor : string -> option Style.

(** The part of the drawing state the plugin touches.  [save] pushes a copy
    of the drawing state and [restore] pops it; the current path and the
    bitmap are not part of the drawing state. *)
Record DrawingState : Type := {
  fillStyle : Style;
  strokeStyle : Style;
  lineWidth : float;
  font : string;
  textAlign : string;
  textBaseline : string
}.

(** One painting operation carried out on the bitmap, with everything of
    the state it was carried out with.  Filling or stroking an outline with
    no line in it is carried out and leaves no pixel. *)
Inductive Paint : Type :=
| Fill (outline : list Segment) (style : Style)
| Stroke (outline : list Segment) (style : Style) (width : float)
| FillText (text : string) (x y : float) (style : Style)
    (fnt align baseline : string).

Record Context2D : Type := {
  state : DrawingState;
  saved : list DrawingState;
  path : list Segment;
  bitmap : list Paint
}.

Definition with_state (f : DrawingState -> DrawingState) (c : Context2D)
  : Context2D :=
  {| state := f (state c); saved := saved c; path := path c;
     bitmap := bitmap c |}.

Definition with_path (p : list Segment) (c : Context2D) : Context2D :=
  {| state := state c; saved := saved c; path := p; bitmap := bitmap c |}.

Definition paint (m : Paint) (c : Context2D) : Context2D :=
  {| state := state c; saved := saved c; path := path c;
     bitmap := bitmap c ++ [m] |}.

Definition save (c : Context2D) : Context2D :=
  {| state := state c; saved := state c :: saved c; path := path c;
     bitmap := bitmap c |}.

(** With nothing saved, [restore] does nothing. *)
Definition restore (c : Context2D) : Context2D :=
  match saved c with
  | [] => c
  | s :: rest =>
      {| state := s; saved := rest; path := path c; bitmap := bitmap c |}
  end.

Definition beginPath : Context2D -> Context2D := with_path [].
Definition moveTo (x y : float) (c : Context2D) : Context2D :=
  with_path (path_moveTo x y (path c)) c.
Definition lineTo (x y : float) (c : Context2D) : Context2D :=
  with_path (path_lineTo x y (path c)) c.
Definition closePath (c : Context2D) : Context2D :=
  with_path (path_closePath (path c)) c.

(** The style after the string [v] is assigned over the style [old]. *)
Definition assigned (v : string) (old : Style) : Style :=
  match parseColor v with
  | Some style => style
  | None => old
  end.

Definition set_fillStyle (v : string) : Context2D -> Context2D :=
  with_state (fun s =>
    {| fillStyle := assigned v (fillStyle s); strokeStyle := strokeStyle s;
       lineWidth := lineWidth s; font := font s; textAlign := textAlign s;
       textBaseline := textBaseline s |}).
Definition set_strokeStyle (v : string) : Context2D -> Context2D :=
  with_state (fun s =>
    {| fillStyle := fillStyle s; strokeStyle := assigned v (strokeStyle s);
       lineWidth := lineWidth s; font := font s; textAlign := textAlign s;
       textBaseline := textBaseline s |}).

(** Zero, negative, infinite and NaN line widths are ignored. *)
Definition set_lineWidth (v : float) (c : Context2D) : Context2D :=
  if (0 <? v)%float && is_finite v then
    with_state (fun s =>
      {| fillStyle := fillStyle s; strokeStyle := strokeStyle s;
         lineWidth := v; font := font s; textAlign := textAlign s;
         textBaseline := textBaseline s |}) c
  else c.

(** The plugin assigns one font, the constant it builds from [ICON_SIZE]:
    a CSS font, which the canvas takes over. *)
Definition set_font (v : string) : Context2D -> Context2D :=
  with_state (fun s =>
    {| fillStyle := fillStyle s; strokeStyle := strokeStyle s;
       lineWidth := lineWidth s; font := v; textAlign := textAlign s;
       textBaseline := textBaseline s |}).

(** A string that is no keyword of the property is ignored. *)
Definition set_textAlign (v : string) (c : Context2D) : Context2D :=
  if existsb (String.eqb v) ["start"; "end"; "left"; "right"; "center"] then
    with_state (fun s =>
      {| fillStyle := fillStyle s; strokeStyle := strokeStyle s;
         lineWidth := lineWidth s; font := font s; textAlign := v;
         textBaseline := textBaseline s |}) c
  else c.
Definition set_textBaseline (v : string) (c : Context2D) : Context2D :=
  if existsb (String.eqb v)
       ["top"; "hanging"; "middle"; "alphabetic"; "ideographic"; "bottom"]
  then
    with_state (fun s =>
      {| fillStyle := fillStyle s; strokeStyle := strokeStyle s;
         lineWidth := lineWidth s; font := font s; textAlign := textAlign s;
         textBaseline := v |}) c
  else c.

Definition fill (c : Context2D) : Context2D :=
  paint (Fill (path c) (fillStyle (state c))) c.
Definition stroke (c : Context2D) : Context2D :=
  paint (Stroke (path c) (strokeStyle (state c)) (lineWidth (state c))) c.
Definition fillText (text : string) (x y : float) (c : Context2D) : Context2D :=
  if finite x y then
    paint (FillText text x y (fillStyle (state c)) (font (state c))
             (textAlign (state c)) (textBaseline (state c))) c
  else c.

(** Statements in sequence. *)
Definition run (statements : list (Context2D -> Context2D)) (c : Context2D)
  : Context2D :=
  fold_left (fun c' statement => statement c') statements c.

(** ** The chart *)

Record Chart : Type := {
  ctx : Context2D;
  metas : list (list Element)
}.

(** [chart.getDatasetMeta(i).data]; a dataset that is not there has no
    elements. *)
Definition getDatasetMeta (chart : Chart) (i : nat) : list Element :=
  nth i (metas chart) [].

(** [meta.data[index]]: [undefined] below zero and past the end. *)
Definition element_at (elements : list Element) (index : Z) : option Element :=
  if (index <? 0)%Z then None else nth_error elements (Z.to_nat index).

(** ** createFailedIconPlugin *)

Definition ICON_SIZE : float := 14.
Definition ICON_OFFSET : float := 4.

(** The body of the [forEach] callback once an element is found.  The font
    is the template string with [ICON_SIZE * 0.6], the double 8.4,
    printed. *)
Definition drawIcon (failedIconColor : string) (element : Element)
  : Context2D -> Context2D :=
  let iconX := x element in
  let iconY := y element - ICON_OFFSET - ICON_SIZE in
  let half := ICON_SIZE / 2 in
  run [ save;
        beginPath;
        moveTo iconX (iconY + ICON_SIZE);
        lineTo (iconX - half) iconY;
        lineTo (iconX + half) iconY;
        closePath;
        set_fillStyle failedIconColor;
        fill;
        set_strokeStyle failedIconColor;
        set_lineWidth 1;
        stroke;
        set_fillStyle "white";
        set_font "bold 8.4px sans-serif";
        set_textAlign "center";
        set_textBaseline "middle";
        fillText "!" iconX (iconY + ICON_SIZE * 0.55);
        restore ].

Definition forEach_callback (failedIconColor : string)
    (elements : list Element) (c : Context2D) (index : Z) : Context2D :=
  match element_at elements index with
  | None => c
  | Some element => drawIcon failedIconColor element c
  end.

Definition afterDatasetsDraw (failedIndices : list Z)
    (failedIconColor : string) (chart : Chart) : Chart :=
  match failedIndices with
  | [] => chart
  | _ =>
      let elements := getDatasetMeta chart 1 in
      match elements with
      | [] => chart
      | _ =>
          {| ctx := fold_left (forEach_callback failedIconColor elements)
                      failedIndices (ctx chart);
             metas := metas chart |}
      end
  end.

(** ** Vocabulary of the statements *)

(** The outline the callback traces for an element: with finite
    coordinates, the three vertices and the closing line. *)
Definition triangle (element : Element) : list Segment :=
  let iconX := x element in
  let iconY := y element - ICON_OFFSET - ICON_SIZE in
  let half := ICON_SIZE / 2 in
  path_closePath
    (path_lineTo (iconX + half) iconY
       (path_lineTo (iconX - half) iconY
          (path_moveTo iconX (iconY + ICON_SIZE) []))).

(** Where the "!" of an element is anchored, and whether the canvas paints
    it. *)
Definition glyph_y (element : Element) : float :=
  y element - ICON_OFFSET - ICON_SIZE + ICON_SIZE * 0.55.

Definition glyph_painted (element : Element) : bool :=
  finite (x element) (glyph_y element).

(** The painting operations one icon adds to the bitmap of a context whose
    drawing state was [before]: a colour that does not parse leaves the
    triangle in the styles of [before]. *)
Definition marks (failedIconColor : string) (before : DrawingState)
    (element : Element) : list Paint :=
  [ Fill (triangle element) (assigned failedIconColor (fillStyle before));
    Stroke (triangle element) (assigned failedIconColor (strokeStyle before))
      1 ]
  ++ (if glyph_painted element then
        [ FillText "!" (x element) (glyph_y element)
            (assigned "white" (assigned failedIconColor (fillStyle before)))
            "bold 8.4px sans-serif" "center" "middle" ]
      else []).

(** The elements the failed indices point at, in the order of the indices;
    an index with no element contributes nothing. *)
Definition found (elements : list Element) (failedIndices : list Z)
  : list Element :=
  flat_map (fun index =>
              match element_at elements index with
              | Some element => [element]
              | None => []
              end) failedIndices.

End Canvas.

(** The path a run of icons leaves behind: that of the last one. *)
Definition last_path (p : list Segment) (elements : list Element)
  : list Segment :=
  fold_left (fun _ element => triangle element) elements p.

Definition vertices (outline : list Segment) : list (float * float) :=
  flat_map (fun s =>
              match s with
              | MoveTo px py | LineTo px py => [(px, py)]
              | ClosePath => []
              end) outline.

Definition has_vertex (v : float * float) (outline : list Segment) : bool :=
  existsb (fun w => (fst v =? fst w)%float && (snd v =? snd w)%float)
    (vertices outline).

(** An upward-pointing triangle above the point (px, py), on the canvas
    whose y axis grows downward: base 14 wide on the line 4 units above the
    point, apex 14 units higher. *)
Definition upward_triangle (px py : float) (outline : list Segment) : bool :=
  has_vertex (px - 7, py - 4) outline && has_vertex (px + 7, py - 4) outline
  && has_vertex (px, py - 18) outline.

(** The same box with the triangle pointing down: apex 4 units above the
    point, the 14 wide horizontal edge 14 units higher. *)
Definition downward_triangle (px py : float) (outline : list Segment) : bool :=
  has_vertex (px, py - 4) outline && has_vertex (px - 7, py - 18) outline
  && has_vertex (px + 7, py - 18) outline.

(** ** A host to run the plugin on *)

Definition hex_digit (ch : ascii) : option N :=
  let n := N_of_ascii ch in
  if ((48 <=? n) && (n <=? 57))%N then Some (n - 48)%N
  else if ((97 <=? n) && (n <=? 102))%N then Some (n - 87)%N
  else if ((65 <=? n) && (n <=? 70))%N then Some (n - 55)%N
  else None.

(** Red, green and blue of the colours the examples use: [#rgb] and
    [#rrggbb] in hexadecimal, and the keyword [white].  Every other string
    is taken for no colour. *)
Definition css_color (s : string) : option (N * N * N) :=
  match s with
  | "white" => Some (255, 255, 255)%N
  | String "#" (String r (String g (String b EmptyString))) =>
      match hex_digit r, hex_digit g, hex_digit b with
      | Some r, Some g, Some b => Some (17 * r, 17 * g, 17 * b)%N
      | _, _, _ => None
      end
  | String "#" (String r1 (String r0 (String g1 (String g0
      (String b1 (String b0 EmptyString)))))) =>
      match hex_digit r1, hex_digit r0, hex_digit g1, hex_digit g0,
            hex_digit b1, hex_digit b0 with
      | Some r1, Some r0, Some g1, Some g0, Some b1, Some b0 =>
          Some (16 * r1 + r0, 16 * g1 + g0, 16 * b1 + b0)%N
      | _, _, _, _, _, _ => None
      end
  | _ => None
  end.

(** A chart with three rendered points in its second dataset, an untouched
    context, and nothing drawn yet. *)
Definition blank : Context2D (N * N * N) :=
  {| state := {| fillStyle := (0, 0, 0)%N; strokeStyle := (0, 0, 0)%N;
                 lineWidth := 2; font := "10px sans-serif";
                 textAlign := "start"; textBaseline := "alphabetic" |};
     saved := []; path := []; bitmap := [] |}.

Definition three_points : Chart (N * N * N) :=
  {| ctx := blank;
     metas := [ [];
                [ {| x := 10; y := 80 |}; {| x := 20; y := 65 |};
                  {| x := 30; y := 50 |} ] ] |}.

End FailedIconPlugin.

Unset Implicit Arguments.

(** * Lists *)

Module ListFacts.

Lemma filter_sub {A} (P Q : A -> bool) (s : list A) :
  (forall r, In r s -> P r = true -> Q r = true) ->
  filter P (filter Q s) = filter P s.
Proof.
  induction s as [| r s IH]; intros H; [ reflexivity | ].
  simpl. destruct (Q r) eqn:HQ; simpl.
  - rewrite IH; [ reflexivity | ]. intros; apply H; auto. now right.
  - destruct (P r) eqn:HP.
    + rewrite (H r (or_introl eq_refl) HP) in HQ. discriminate.
    + apply IH. intros; apply H; auto. now right.
Qed.

Lemma filter_none {A} (P : A -> bool) (s : list A) :
  (forall r, In r s -> P r = false) -> filter P s = [].
Proof.
  induction s as [| r s IH]; intros H; [ reflexivity | ].
  simpl. rewrite (H r (or_introl eq_refl)). apply IH.
  intros; apply H. now right.
Qed.

Lemma filter_split {A} (P : A -> bool) (s u v : list A) (a : A) :
  filter P s = (u ++ a :: v)%list ->
  exists s1 s2,
    s = (s1 ++ a :: s2)%list /\ filter P s1 = u /\ filter P s2 = v.
Proof.
  revert u. induction s as [| r s IH]; intros u H.
  - destruct u; discriminate.
  - simpl in H. destruct (P r) eqn:HP.
    + destruct u as [| h u]; simpl in H; injection H as -> H.
      * exists [], s. simpl. auto.
      * destruct (IH u H) as (s1 & s2 & -> & <- & <-).
        exists (h :: s1), s2. simpl. rewrite HP. auto.
    + destruct (IH u H) as (s1 & s2 & -> & <- & <-).
      exists (r :: s1), s2. simpl. rewrite HP. auto.
Qed.

Section SortedLists.
Context {A : Type}.

Lemma StronglySorted_mono (R R' : A -> A -> Prop) (l : list A) :
  (forall a b, In a l -> In b l -> R a b -> R' a b) ->
  StronglySorted R l -> StronglySorted R' l.
Proof.
  induction l as [| x l IH]; intros H HS; [ constructor | ].
  inversion HS as [| ? ? HS' HF]; subst. constructor.
  - apply IH; [ | assumption ]. intros a b Ha Hb. apply H; now right.
  - rewrite Forall_forall in *. intros y Hy.
    apply H; [ now left | now right | now apply HF ].
Qed.

Lemma StronglySorted_app (R : A -> A -> Prop) (l1 l2 : list A) :
  StronglySorted R l1 -> StronglySorted R l2 ->
  (forall a b, In a l1 -> In b l2 -> R a b) ->
  StronglySorted R (l1 ++ l2).
Proof.
  induction l1 as [| x l1 IH]; intros H1 H2 H; [ assumption | ].
  inversion H1 as [| ? ? H1' HF]; subst. simpl. constructor.
  - apply IH; auto. intros a b Ha Hb. apply H; [ now right | assumption ].
  - apply Forall_app. split; [ assumption | ].
    apply Forall_forall. intros b Hb. apply H; [ now left | assumption ].
Qed.

Lemma StronglySorted_app_inv (R : A -> A -> Prop) (l1 l2 : list A) :
  StronglySorted R (l1 ++ l2) ->
  StronglySorted R l1 /\ StronglySorted R l2 /\
  (forall a b, In a l1 -> In b l2 -> R a b).
Proof.
  induction l1 as [| x l1 IH]; intros HS.
  - repeat split; [ constructor | assumption | intros a b [] ].
  - simpl in HS. inversion HS as [| ? ? HS' HF]; subst.
    destruct (IH HS') as (H1 & H2 & H12).
    apply Forall_app in HF. destruct HF as [HF1 HF2].
    repeat split; [ now constructor | assumption | ].
    intros a b [<- | Ha] Hb; [ | now apply H12 ].
    rewrite Forall_forall in HF2. now apply HF2.
Qed.

Lemma StronglySorted_rev (R : A -> A -> Prop) (l : list A) :
  StronglySorted R l -> StronglySorted (fun a b => R b a) (rev l).
Proof.
  induction 1 as [| x l HS IH HF]; [ constructor | ].
  simpl. apply StronglySorted_app; [ assumption | repeat constructor | ].
  intros a b Ha [<- | []]. apply in_rev in Ha.
  rewrite Forall_forall in HF. now apply HF.
Qed.

Lemma skipn_nth (l : list A) (n : nat) (d : A) :
  (n < List.length l)%nat -> skipn n l = nth n l d :: skipn (S n) l.
Proof.
  revert n. induction l as [| x l IH]; intros n Hn; simpl in Hn; [ lia | ].
  destruct n as [| n]; [ reflexivity | ].
  simpl. apply IH. lia.
Qed.

Lemma firstn_S_nth (l : list A) (n : nat) (d : A) :
  (n < List.length l)%nat -> firstn (S n) l = firstn n l ++ [nth n l d].
Proof.
  revert n. induction l as [| x l IH]; intros n Hn; simpl in Hn; [ lia | ].
  destruct n as [| n]; [ reflexivity | ].
  simpl. f_equal. apply IH. lia.
Qed.

End SortedLists.

End ListFacts.

(** * Comparators and the sorts of two engines *)

Module JsFacts.
Import Js ListFacts.

Local Open Scope Z_scope.

Section Consistent.
Context {A : Type}.
Variable c : A -> A -> Z.
Variable L : list A.
Hypothesis HC : consistent_on c L.

Lemma cf_lt_gt a b : In a L -> In b L -> c a b < 0 -> c b a > 0.
Proof.
  intros Ha Hb Hlt.
  destruct (Z.compare_spec (c b a) 0) as [Heq | Hlt' | Hgt]; [ | | lia ].
  - pose proof (cf_sym HC b a Hb Ha Heq). lia.
  - pose proof (cf_lt_trans HC a b a Ha Hb Ha Hlt Hlt').
    pose proof (cf_refl HC a Ha). lia.
Qed.

Lemma cf_gt_lt a b : In a L -> In b L -> c a b > 0 -> c b a < 0.
Proof.
  intros Ha Hb Hgt.
  destruct (Z.compare_spec (c b a) 0) as [Heq | Hlt | Hgt']; [ | lia | ].
  - pose proof (cf_sym HC b a Hb Ha Heq). lia.
  - assert (c b a > 0) as Hgt'' by lia.
    pose proof (cf_gt_trans HC a b a Ha Hb Ha Hgt Hgt'').
    pose proof (cf_refl HC a Ha). lia.
Qed.

Lemma cf_le_trans a b d :
  In a L -> In b L -> In d L -> c a b <= 0 -> c b d <= 0 -> c a d <= 0.
Proof.
  intros Ha Hb Hd Hab Hbd.
  destruct (Z.compare_spec (c a b) 0) as [Hab0 | Hablt | ?]; [ | | lia ];
  destruct (Z.compare_spec (c b d) 0) as [Hbd0 | Hbdlt | ?]; try lia.
  - pose proof (cf_eq_trans HC a b d Ha Hb Hd Hab0 Hbd0). lia.
  - (* a = b < d *)
    destruct (Z.compare_spec (c a d) 0) as [Had0 | ? | Hadgt]; [ | lia | ].
    + pose proof (cf_sym HC a b Ha Hb Hab0) as Hba0.
      pose proof (cf_eq_trans HC b a d Hb Ha Hd Hba0 Had0). lia.
    + assert (c a d > 0) as Hadgt' by lia.
      pose proof (cf_gt_lt a d Ha Hd Hadgt') as Hda.
      pose proof (cf_lt_trans HC b d a Hb Hd Ha Hbdlt Hda) as Hba.
      pose proof (cf_sym HC a b Ha Hb Hab0). lia.
  - (* a < b = d *)
    destruct (Z.compare_spec (c a d) 0) as [Had0 | ? | Hadgt]; [ | lia | ].
    + pose proof (cf_sym HC a d Ha Hd Had0) as Hda0.
      pose proof (cf_eq_trans HC b d a Hb Hd Ha Hbd0 Hda0) as Hba0.
      pose proof (cf_sym HC b a Hb Ha Hba0). lia.
    + assert (c a d > 0) as Hadgt' by lia.
      pose proof (cf_gt_lt a d Ha Hd Hadgt') as Hda.
      pose proof (cf_lt_trans HC d a b Hd Ha Hb Hda Hablt) as Hdb.
      pose proof (cf_sym HC b d Hb Hd Hbd0). lia.
  - pose proof (cf_lt_trans HC a b d Ha Hb Hd Hablt Hbdlt). lia.
Qed.

End Consistent.

Section OrderFacts.
Context {A : Type}.
Variable c : A -> A -> Z.
Variable L : list A.
Hypothesis HC : consistent_on c L.

Lemma cf_lt_le_trans a b d :
  In a L -> In b L -> In d L -> c a b < 0 -> c b d <= 0 -> c a d < 0.
Proof.
  intros Ha Hb Hd Hab Hbd.
  destruct (Z.compare_spec (c b d) 0) as [Hbd0 | Hbdlt | ?]; [ | | lia ].
  - destruct (Z.compare_spec (c a d) 0) as [Had0 | ? | Hadgt];
      [ | assumption | ].
    + pose proof (cf_sym HC a d Ha Hd Had0) as Hda0.
      pose proof (cf_eq_trans HC b d a Hb Hd Ha Hbd0 Hda0) as Hba0.
      pose proof (cf_sym HC b a Hb Ha Hba0). lia.
    + assert (c a d > 0) as Hadgt' by lia.
      pose proof (cf_gt_lt _ _ HC a d Ha Hd Hadgt') as Hda.
      pose proof (cf_lt_trans HC d a b Hd Ha Hb Hda Hab) as Hdb.
      pose proof (cf_sym HC b d Hb Hd Hbd0). lia.
  - apply (cf_lt_trans HC a b d); auto.
Qed.

Lemma cf_ge_le a b : In a L -> In b L -> c a b >= 0 -> c b a <= 0.
Proof.
  intros Ha Hb Hge.
  destruct (Z.compare_spec (c a b) 0) as [H0 | ? | Hgt]; [ | lia | ].
  - pose proof (cf_sym HC a b Ha Hb H0). lia.
  - assert (c a b > 0) as Hgt' by lia.
    pose proof (cf_gt_lt _ _ HC a b Ha Hb Hgt'). lia.
Qed.

Lemma cf_tie_not_lt x a b :
  In x L -> In a L -> In b L -> c x a = 0 -> c x b = 0 -> c a b = 0.
Proof.
  intros Hx Ha Hb Hxa Hxb.
  pose proof (cf_sym HC x a Hx Ha Hxa) as Hax.
  apply (cf_eq_trans HC a x b Ha Hx Hb Hax Hxb).
Qed.

End OrderFacts.

Lemma consistent_on_incl {A} (c : A -> A -> Z) (l l' : list A) :
  incl l' l -> consistent_on c l -> consistent_on c l'.
Proof.
  intros Hi HC. constructor; intros.
  - apply (cf_refl HC); auto.
  - apply (cf_sym HC); auto.
  - apply (cf_eq_trans HC) with b; auto.
  - apply (cf_lt_trans HC) with b; auto.
  - apply (cf_gt_trans HC) with b; auto.
Qed.

(** A comparator that reads an integer key off each element. *)
Lemma consistent_on_key {A} (key : A -> Z) (c : A -> A -> Z) (l : list A) :
  (forall a b, In a l -> In b l -> c a b = key a - key b) ->
  consistent_on c l.
Proof.
  intros H. constructor.
  - intros a Ha. rewrite (H a a Ha Ha). lia.
  - intros a b Ha Hb. rewrite (H a b Ha Hb), (H b a Hb Ha). lia.
  - intros a b d Ha Hb Hd.
    rewrite (H a b Ha Hb), (H b d Hb Hd), (H a d Ha Hd). lia.
  - intros a b d Ha Hb Hd.
    rewrite (H a b Ha Hb), (H b d Hb Hd), (H a d Ha Hd). lia.
  - intros a b d Ha Hb Hd.
    rewrite (H a b Ha Hb), (H b d Hb Hd), (H a d Ha Hd). lia.
Qed.

(** Reversing the direction keeps a comparator consistent. *)
Lemma consistent_on_opp {A} (c : A -> A -> Z) (l : list A) :
  consistent_on c l -> consistent_on (fun a b => - c a b) l.
Proof.
  intros HC. constructor.
  - intros a Ha. pose proof (cf_refl HC a Ha). lia.
  - intros a b Ha Hb Hab.
    assert (c a b = 0) as Hab' by lia.
    pose proof (cf_sym HC a b Ha Hb Hab'). lia.
  - intros a b d Ha Hb Hd Hab Hbd.
    assert (c a b = 0) as Hab' by lia. assert (c b d = 0) as Hbd' by lia.
    pose proof (cf_eq_trans HC a b d Ha Hb Hd Hab' Hbd'). lia.
  - intros a b d Ha Hb Hd Hab Hbd.
    assert (c a b > 0) as Hab' by lia. assert (c b d > 0) as Hbd' by lia.
    pose proof (cf_gt_trans HC a b d Ha Hb Hd Hab' Hbd'). lia.
  - intros a b d Ha Hb Hd Hab Hbd.
    assert (c a b < 0) as Hab' by lia. assert (c b d < 0) as Hbd' by lia.
    pose proof (cf_lt_trans HC a b d Ha Hb Hd Hab' Hbd'). lia.
Qed.

Section InsertionSortFacts.
Context {A : Type}.
Variable f : A -> A -> Number.

Lemma insert_perm x l : Permutation (insert f x l) (x :: l).
Proof.
  induction l as [| y l IH]; simpl; [ reflexivity | ].
  destruct (SortCompare f x y <=? 0); [ reflexivity | ].
  rewrite IH. apply perm_swap.
Qed.

Lemma isort_perm l : Permutation (isort f l) l.
Proof.
  induction l as [| x l IH]; simpl; [ reflexivity | ].
  rewrite insert_perm. now constructor.
Qed.

Variable L : list A.
Hypothesis HC : consistent_on (SortCompare f) L.

Lemma insert_sorted x s :
  In x L -> incl s L ->
  StronglySorted (fun a b => SortCompare f a b <= 0) s ->
  StronglySorted (fun a b => SortCompare f a b <= 0) (insert f x s).
Proof.
  intros Hx. induction s as [| y s IH]; intros Hs HS; simpl.
  - repeat constructor.
  - assert (In y L) as Hy by (apply Hs; now left).
    assert (incl s L) as Hs' by (intros z Hz; apply Hs; now right).
    inversion HS as [| ? ? HS' HF]; subst.
    destruct (Z.leb_spec (SortCompare f x y) 0) as [Hle | Hgt].
    + constructor; [ assumption | ].
      constructor; [ assumption | ].
      rewrite Forall_forall in *. intros z Hz.
      apply (cf_le_trans _ _ HC x y z); auto.
    + constructor; [ now apply IH | ].
      apply (Permutation_Forall (Permutation_sym (insert_perm x s))).
      constructor; [ | assumption ].
      assert (SortCompare f y x < 0)
        by (apply (cf_gt_lt _ _ HC); auto; lia).
      lia.
Qed.

Lemma isort_incl l : incl l L -> incl (isort f l) L.
Proof.
  intros Hl z Hz. apply Hl.
  apply (Permutation_in z (isort_perm l) Hz).
Qed.

Lemma isort_sorted_on l :
  incl l L -> StronglySorted (fun a b => SortCompare f a b <= 0) (isort f l).
Proof.
  induction l as [| x l IH]; intros Hl; simpl; [ constructor | ].
  apply insert_sorted.
  - apply Hl; now left.
  - apply isort_incl. intros z Hz; apply Hl; now right.
  - apply IH. intros z Hz; apply Hl; now right.
Qed.

Lemma ties_insert x h s :
  In x L -> In h L -> incl s L ->
  ties (SortCompare f) x (insert f h s) = ties (SortCompare f) x (h :: s).
Proof.
  intros Hx Hh. induction s as [| y s IH]; intros Hs; [ reflexivity | ].
  assert (In y L) as Hy by (apply Hs; now left).
  assert (incl s L) as Hs' by (intros z Hz; apply Hs; now right).
  simpl. destruct (Z.leb_spec (SortCompare f h y) 0) as [Hle | Hgt];
    [ reflexivity | ].
  unfold ties in *. simpl in *. rewrite (IH Hs').
  destruct (Z.eqb_spec (SortCompare f x y) 0) as [Hxy | Hxy];
  destruct (Z.eqb_spec (SortCompare f x h) 0) as [Hxh | Hxh];
    try reflexivity.
  exfalso.
  pose proof (cf_sym HC x h Hx Hh Hxh) as Hhx.
  pose proof (cf_eq_trans HC h x y Hh Hx Hy Hhx Hxy). lia.
Qed.

Lemma isort_stable_on l x :
  In x L -> incl l L ->
  ties (SortCompare f) x (isort f l) = ties (SortCompare f) x l.
Proof.
  intros Hx. induction l as [| h l IH]; intros Hl; [ reflexivity | ].
  simpl. rewrite ties_insert; auto.
  - unfold ties in *. simpl. rewrite IH; [ reflexivity | ].
    intros z Hz; apply Hl; now right.
  - apply Hl; now left.
  - apply isort_incl. intros z Hz; apply Hl; now right.
Qed.

End InsertionSortFacts.

Lemma isort_conforms (A : Type) : sort_conforms (@isort A).
Proof.
  constructor.
  - intros f l. apply isort_perm.
  - intros f l HC. apply (isort_sorted_on f l HC). apply incl_refl.
  - intros f l HC x Hx. apply (isort_stable_on f l HC); auto. apply incl_refl.
Qed.

(** Two comparators that agree on a list are consistent together. *)
Lemma consistent_on_ext {A} (c c' : A -> A -> Z) (l : list A) :
  (forall a b, In a l -> In b l -> c a b = c' a b) ->
  consistent_on c' l -> consistent_on c l.
Proof.
  intros H HC. constructor.
  - intros a Ha. rewrite (H a a Ha Ha). apply (cf_refl HC a Ha).
  - intros a b Ha Hb. rewrite (H a b Ha Hb), (H b a Hb Ha).
    apply (cf_sym HC a b Ha Hb).
  - intros a b d Ha Hb Hd.
    rewrite (H a b Ha Hb), (H b d Hb Hd), (H a d Ha Hd).
    apply (cf_eq_trans HC a b d Ha Hb Hd).
  - intros a b d Ha Hb Hd.
    rewrite (H a b Ha Hb), (H b d Hb Hd), (H a d Ha Hd).
    apply (cf_lt_trans HC a b d Ha Hb Hd).
  - intros a b d Ha Hb Hd.
    rewrite (H a b Ha Hb), (H b d Hb Hd), (H a d Ha Hd).
    apply (cf_gt_trans HC a b d Ha Hb Hd).
Qed.

(** Comparing through a projection. *)
Lemma consistent_on_map {A B} (g : A -> B) (c : B -> B -> Z) (l : list A) :
  consistent_on c (map g l) -> consistent_on (fun a b => c (g a) (g b)) l.
Proof.
  intros HC. constructor; intros.
  - apply (cf_refl HC); now apply in_map.
  - apply (cf_sym HC); auto using in_map.
  - apply (cf_eq_trans HC) with (g b); auto using in_map.
  - apply (cf_lt_trans HC) with (g b); auto using in_map.
  - apply (cf_gt_trans HC) with (g b); auto using in_map.
Qed.

(** When every pair ties, a conforming sort returns its argument. *)
Lemma sort_all_ties {A} (sort : (A -> A -> Number) -> list A -> list A)
    (f : A -> A -> Number) (l : list A) :
  sort_conforms sort ->
  (forall a b, In a l -> In b l -> SortCompare f a b = 0) ->
  sort f l = l.
Proof.
  intros HS Hties.
  assert (consistent_on (SortCompare f) l) as HC.
  { constructor; intros; try apply Hties; auto;
      match goal with
      | H : SortCompare f ?a ?b < 0 |- _ => rewrite (Hties a b) in H by auto
      | H : SortCompare f ?a ?b > 0 |- _ => rewrite (Hties a b) in H by auto
      end; lia. }
  destruct l as [| x l'].
  - apply Permutation_nil. apply Permutation_sym, (sort_permutation HS).
  - pose proof (sort_stable HS HC x (or_introl eq_refl)) as Hst.
    assert (forall s, (forall y, In y s -> In y (x :: l')) ->
                      ties (SortCompare f) x s = s) as Hall.
    { induction s as [| y s IH]; intros Hin; [ reflexivity | ].
      unfold ties in *. simpl.
      rewrite (Hties x y) by (try (now left); apply Hin; now left).
      simpl. f_equal. apply IH. intros z Hz. apply Hin. now right. }
    rewrite (Hall (x :: l')) in Hst by auto.
    rewrite Hall in Hst; [ assumption | ].
    intros y Hy. apply (Permutation_in y (sort_permutation HS f (x :: l')) Hy).
Qed.

(** A conforming sort on two elements. *)
Lemma sort_pair_lt {A} (sort : (A -> A -> Number) -> list A -> list A)
    (f : A -> A -> Number) (a b : A) :
  sort_conforms sort -> consistent_on (SortCompare f) [a; b] ->
  SortCompare f a b < 0 -> sort f [a; b] = [a; b].
Proof.
  intros HS HC Hlt.
  destruct (Permutation_length_2_inv
              (Permutation_sym (sort_permutation HS f [a; b]))) as [-> | Heq];
    [ reflexivity | ].
  pose proof (sort_sorted HS HC) as Hsorted. rewrite Heq in Hsorted.
  inversion Hsorted as [| ? ? _ HF]; subst.
  inversion HF as [| ? ? Hba _]; subst.
  assert (SortCompare f b a > 0)
    by (apply (cf_lt_gt _ _ HC); simpl; auto).
  lia.
Qed.

Lemma sort_pair_gt {A} (sort : (A -> A -> Number) -> list A -> list A)
    (f : A -> A -> Number) (a b : A) :
  sort_conforms sort -> consistent_on (SortCompare f) [a; b] ->
  SortCompare f a b > 0 -> sort f [a; b] = [b; a].
Proof.
  intros HS HC Hgt.
  destruct (Permutation_length_2_inv
              (Permutation_sym (sort_permutation HS f [a; b]))) as [Heq | ->];
    [ | reflexivity ].
  pose proof (sort_sorted HS HC) as Hsorted. rewrite Heq in Hsorted.
  inversion Hsorted as [| ? ? _ HF]; subst.
  inversion HF as [| ? ? Hab _]; subst. lia.
Qed.

(** ** V8's sort of short arrays conforms *)

Section V8ShortFacts.
Context {A : Type}.
Variable f : A -> A -> Number.

Local Abbreviation c := (SortCompare f).
Local Abbreviation le := (fun a b => SortCompare f a b <= 0).
Local Abbreviation above := (fun a b => SortCompare f b a < 0).

Lemma run_tail_split d previous l :
  fst (run_tail f d previous l) ++ snd (run_tail f d previous l) = l.
Proof.
  revert previous. induction l as [| current l IH]; intros previous;
    [ reflexivity | ].
  simpl.
  destruct (if d then 0 <=? c current previous else c current previous <? 0);
    [ reflexivity | ].
  specialize (IH current).
  destruct (run_tail f d current l) as [run rest]. simpl in *. now f_equal.
Qed.

Lemma binary_insert_perm work pivot :
  Permutation (binary_insert f work pivot) (work ++ [pivot]).
Proof.
  unfold binary_insert.
  set (p := insertion_point f _ pivot work 0 _).
  rewrite <- (firstn_skipn p work) at 3.
  rewrite <- app_assoc. apply Permutation_app_head.
  rewrite <- Permutation_cons_append. reflexivity.
Qed.

Lemma BinaryInsertionSort_perm rest run :
  Permutation (BinaryInsertionSort f run rest) (run ++ rest).
Proof.
  unfold BinaryInsertionSort. revert run.
  induction rest as [| pivot rest IH]; intros run; simpl.
  - now rewrite app_nil_r.
  - rewrite IH, binary_insert_perm, <- app_assoc. reflexivity.
Qed.

Lemma CountAndMakeRun_perm l :
  Permutation (fst (CountAndMakeRun f l) ++ snd (CountAndMakeRun f l)) l.
Proof.
  destruct l as [| x0 [| x1 l]]; try reflexivity.
  unfold CountAndMakeRun.
  pose proof (run_tail_split (c x1 x0 <? 0) x1 l) as Hs.
  destruct (run_tail f (c x1 x0 <? 0) x1 l) as [run rest]. simpl in Hs.
  destruct (c x1 x0 <? 0); cbn [fst snd].
  - rewrite <- Permutation_rev. simpl. now rewrite Hs.
  - simpl. now rewrite Hs.
Qed.

Lemma v8_short_sort_perm l : Permutation (v8_short_sort f l) l.
Proof.
  unfold v8_short_sort.
  pose proof (CountAndMakeRun_perm l) as H.
  destruct (CountAndMakeRun f l) as [run rest]. simpl in H.
  now rewrite BinaryInsertionSort_perm.
Qed.

Variable L : list A.
Hypothesis HC : consistent_on (SortCompare f) L.

Lemma ascending_run previous l :
  incl (previous :: l) L ->
  StronglySorted le (previous :: fst (run_tail f false previous l)).
Proof.
  revert previous. induction l as [| current l IH]; intros previous Hin.
  - repeat constructor.
  - simpl. destruct (Z.ltb_spec (c current previous) 0) as [Hlt | Hge].
    + repeat constructor.
    + assert (incl (current :: l) L) as Hin'
          by (intros z Hz; apply Hin; now right).
      specialize (IH current Hin').
      pose proof (run_tail_split false current l) as Hs.
      destruct (run_tail f false current l) as [run rest]. simpl in *.
      assert (In previous L) as Hp by (apply Hin; now left).
      assert (In current L) as Hcur by (apply Hin; right; now left).
      assert (c previous current <= 0) as Hle
          by (apply (cf_ge_le _ _ HC); auto; lia).
      constructor; [ assumption | ].
      constructor; [ assumption | ].
      inversion IH as [| ? ? _ HF]; subst.
      rewrite Forall_forall in *. intros y Hy.
      apply (cf_le_trans _ _ HC previous current y); auto.
      apply Hin'. right. apply in_or_app. now left.
Qed.

Lemma descending_run previous l :
  incl (previous :: l) L ->
  StronglySorted above (previous :: fst (run_tail f true previous l)).
Proof.
  revert previous. induction l as [| current l IH]; intros previous Hin.
  - repeat constructor.
  - simpl. destruct (Z.leb_spec 0 (c current previous)) as [Hge | Hlt].
    + repeat constructor.
    + assert (incl (current :: l) L) as Hin'
          by (intros z Hz; apply Hin; now right).
      specialize (IH current Hin').
      pose proof (run_tail_split true current l) as Hs.
      destruct (run_tail f true current l) as [run rest]. simpl in *.
      assert (In previous L) as Hp by (apply Hin; now left).
      assert (In current L) as Hcur by (apply Hin; right; now left).
      constructor; [ assumption | ].
      constructor; [ assumption | ].
      inversion IH as [| ? ? _ HF]; subst.
      rewrite Forall_forall in *. intros y Hy.
      apply (cf_lt_trans HC y current previous); auto.
      apply Hin'. right. apply in_or_app. now left.
Qed.

(** In a strictly descending run no two elements tie. *)
Lemma descending_ties x s :
  In x L -> incl s L -> StronglySorted above s ->
  (List.length (ties c x s) <= 1)%nat.
Proof.
  intros Hx. induction s as [| a s IH]; intros Hs HS; [ simpl; lia | ].
  inversion HS as [| ? ? HS' HF]; subst.
  assert (incl s L) as Hs' by (intros z Hz; apply Hs; now right).
  assert (In a L) as Ha by (apply Hs; now left).
  unfold ties in *. simpl.
  destruct (Z.eqb_spec (c x a) 0) as [Hxa | Hxa]; [ | now apply IH ].
  rewrite filter_none; [ simpl; lia | ].
  intros b Hb. apply Z.eqb_neq. intros Hxb.
  rewrite Forall_forall in HF. specialize (HF b Hb).
  pose proof (cf_tie_not_lt _ _ HC x a b Hx Ha (Hs' b Hb) Hxa Hxb) as Hab.
  pose proof (cf_sym HC a b Ha (Hs' b Hb) Hab). lia.
Qed.

Lemma CountAndMakeRun_sorted l :
  incl l L -> StronglySorted le (fst (CountAndMakeRun f l)).
Proof.
  intros Hin. destruct l as [| x0 [| x1 l]]; try (repeat constructor).
  unfold CountAndMakeRun.
  assert (In x0 L) as H0 by (apply Hin; now left).
  assert (In x1 L) as H1 by (apply Hin; right; now left).
  assert (incl (x1 :: l) L) as Hin' by (intros z Hz; apply Hin; now right).
  pose proof (run_tail_split (c x1 x0 <? 0) x1 l) as Hs.
  pose proof (ascending_run x1 l Hin') as Hasc.
  pose proof (descending_run x1 l Hin') as Hdesc.
  destruct (Z.ltb_spec (c x1 x0) 0) as [Hlt | Hge].
  - destruct (run_tail f true x1 l) as [run rest]. cbn [fst snd] in *.
    assert (incl (x0 :: x1 :: run) L) as Hrun.
    { intros z [<- | [<- | Hz]]; auto.
      apply Hin'. right. rewrite <- Hs. apply in_or_app. now left. }
    assert (StronglySorted above (x0 :: x1 :: run)) as HS.
    { constructor; [ assumption | ].
      constructor; [ assumption | ].
      inversion Hdesc as [| ? ? _ HF]; subst.
      rewrite Forall_forall in *. intros y Hy.
      apply (cf_lt_trans HC y x1 x0); auto.
      apply Hrun. right. now right. }
    apply StronglySorted_rev in HS.
    revert HS. apply StronglySorted_mono. intros a b _ _ Hab. lia.
  - destruct (run_tail f false x1 l) as [run rest]. cbn [fst snd] in *.
    assert (c x0 x1 <= 0) as Hle by (apply (cf_ge_le _ _ HC); auto; lia).
    constructor; [ assumption | ].
    constructor; [ assumption | ].
    inversion Hasc as [| ? ? _ HF]; subst.
    rewrite Forall_forall in *. intros y Hy.
    apply (cf_le_trans _ _ HC x0 x1 y); auto.
    apply Hin'. right. apply in_or_app. now left.
Qed.

Lemma CountAndMakeRun_ties l x :
  In x L -> incl l L ->
  ties c x (fst (CountAndMakeRun f l) ++ snd (CountAndMakeRun f l))
  = ties c x l.
Proof.
  intros Hx Hin. destruct l as [| x0 [| x1 l]]; try reflexivity.
  unfold CountAndMakeRun.
  assert (In x0 L) as H0 by (apply Hin; now left).
  assert (In x1 L) as H1 by (apply Hin; right; now left).
  assert (incl (x1 :: l) L) as Hin' by (intros z Hz; apply Hin; now right).
  pose proof (run_tail_split (c x1 x0 <? 0) x1 l) as Hs.
  pose proof (descending_run x1 l Hin') as Hdesc.
  destruct (Z.ltb_spec (c x1 x0) 0) as [Hlt | Hge].
  - destruct (run_tail f true x1 l) as [run rest]. cbn [fst snd] in *.
    assert (incl (x0 :: x1 :: run) L) as Hrun.
    { intros z [<- | [<- | Hz]]; auto.
      apply Hin'. right. rewrite <- Hs. apply in_or_app. now left. }
    assert (StronglySorted above (x0 :: x1 :: run)) as HS.
    { constructor; [ assumption | ].
      constructor; [ assumption | ].
      inversion Hdesc as [| ? ? _ HF]; subst.
      rewrite Forall_forall in *. intros y Hy.
      apply (cf_lt_trans HC y x1 x0); auto.
      apply Hrun. right. now right. }
    pose proof (descending_ties x _ Hx Hrun HS) as Hlen.
    rewrite <- Hs. unfold ties in *.
    change (x0 :: x1 :: run ++ rest) with ((x0 :: x1 :: run) ++ rest).
    rewrite !filter_app. f_equal.
    rewrite filter_rev.
    destruct (filter (fun y => c x y =? 0) (x0 :: x1 :: run))
      as [| a [| b t]]; simpl in Hlen; try reflexivity; lia.
  - destruct (run_tail f false x1 l) as [run rest]. cbn [fst snd] in *.
    simpl. now rewrite Hs.
Qed.

Section Insertion.
Variable pivot : A.
Variable work : list A.
Hypothesis Hpivot : In pivot L.
Hypothesis Hwork : incl work L.
Hypothesis Hsorted : StronglySorted le work.

Lemma insertion_point_spec fuel left right :
  (left <= right <= List.length work)%nat -> (right - left < fuel)%nat ->
  Forall (fun e => c pivot e >= 0) (firstn left work) ->
  Forall (fun e => c pivot e < 0) (skipn right work) ->
  let p := insertion_point f fuel pivot work left right in
  Forall (fun e => c pivot e >= 0) (firstn p work) /\
  Forall (fun e => c pivot e < 0) (skipn p work).
Proof.
  revert left right.
  induction fuel as [| fuel IH]; intros left right Hlr Hfuel Hl Hr; [ lia | ].
  cbn [insertion_point].
  destruct (Nat.ltb_spec left right) as [Hlt | Hge].
  - set (mid := (left + Nat.div2 (right - left))%nat).
    assert (left <= mid < right)%nat as Hmid.
    { unfold mid.
      assert (Nat.div2 (right - left) < right - left)%nat
        as Hhalf by (apply Nat.lt_div2; lia).
      revert Hhalf. generalize (Nat.div2 (right - left)). lia. }
    assert (mid < List.length work)%nat as Hlen by lia.
    assert (In (nth mid work pivot) L) as Hnth
        by (apply Hwork, nth_In; assumption).
    destruct (Z.ltb_spec (c pivot (nth mid work pivot)) 0) as [Hc | Hc].
    + apply IH; [ lia | lia | assumption | ].
      rewrite (skipn_nth work mid pivot Hlen).
      pose proof Hsorted as HS.
      rewrite <- (firstn_skipn mid work) in HS.
      apply StronglySorted_app_inv in HS. destruct HS as (_ & HS & _).
      rewrite (skipn_nth work mid pivot Hlen) in HS.
      inversion HS as [| ? ? _ HF]; subst.
      constructor; [ assumption | ].
      rewrite Forall_forall in *. intros e He.
      apply (cf_lt_le_trans _ _ HC pivot (nth mid work pivot) e); auto.
      apply Hwork. rewrite <- (firstn_skipn (S mid) work).
      apply in_or_app. now right.
    + apply IH; [ lia | lia | | assumption ].
      rewrite (firstn_S_nth work mid pivot Hlen).
      pose proof Hsorted as HS.
      rewrite <- (firstn_skipn (S mid) work) in HS.
      apply StronglySorted_app_inv in HS. destruct HS as (HS & _ & _).
      rewrite (firstn_S_nth work mid pivot Hlen) in HS.
      apply StronglySorted_app_inv in HS. destruct HS as (_ & _ & HF).
      apply Forall_app. split; [ | repeat constructor; lia ].
      apply Forall_forall. intros e He.
      destruct (Z.ltb_spec (c pivot e) 0) as [Hlt' | ?]; [ | lia ].
      assert (In e L) as HeL.
      { apply Hwork. rewrite <- (firstn_skipn mid work).
        apply in_or_app. now left. }
      pose proof (cf_lt_le_trans _ _ HC pivot e (nth mid work pivot)
                    Hpivot HeL Hnth Hlt'
                    (HF e _ He (or_introl eq_refl))).
      lia.
  - assert (left = right) as -> by lia. auto.
Qed.

Lemma binary_insert_parts :
  let p := insertion_point f (S (List.length work)) pivot work 0
             (List.length work) in
  Forall (fun e => c pivot e >= 0) (firstn p work) /\
  Forall (fun e => c pivot e < 0) (skipn p work).
Proof.
  apply insertion_point_spec.
  - lia.
  - lia.
  - constructor.
  - rewrite skipn_all. constructor.
Qed.

Lemma binary_insert_sorted :
  StronglySorted le (binary_insert f work pivot).
Proof.
  unfold binary_insert.
  destruct binary_insert_parts as [Hbelow Habove].
  set (p := insertion_point f _ pivot work 0 _) in *.
  pose proof Hsorted as HS. rewrite <- (firstn_skipn p work) in HS.
  apply StronglySorted_app_inv in HS. destruct HS as (HS1 & HS2 & H12).
  rewrite Forall_forall in Hbelow, Habove.
  apply StronglySorted_app; [ assumption | | ].
  - constructor; [ assumption | ].
    apply Forall_forall. intros e He. specialize (Habove e He). lia.
  - intros a b Ha [<- | Hb]; [ | now apply H12 ].
    apply (cf_ge_le _ _ HC); auto.
    apply Hwork. rewrite <- (firstn_skipn p work). apply in_or_app. now left.
Qed.

Lemma binary_insert_ties x :
  In x L ->
  ties c x (binary_insert f work pivot) = ties c x (work ++ [pivot]).
Proof.
  intros Hx. unfold binary_insert.
  destruct binary_insert_parts as [_ Habove].
  set (p := insertion_point f _ pivot work 0 _) in *.
  rewrite <- (firstn_skipn p work) at 3.
  unfold ties. rewrite !filter_app. simpl.
  rewrite <- app_assoc. f_equal.
  destruct (Z.eqb_spec (c x pivot) 0) as [Hxp | Hxp];
    [ | now rewrite app_nil_r ].
  rewrite filter_none; [ reflexivity | ].
  intros e He. apply Z.eqb_neq. intros Hxe.
  rewrite Forall_forall in Habove. specialize (Habove e He).
  assert (In e L) as HeL.
  { apply Hwork. rewrite <- (firstn_skipn p work). apply in_or_app.
    now right. }
  pose proof (cf_tie_not_lt _ _ HC x pivot e Hx Hpivot HeL Hxp Hxe). lia.
Qed.

End Insertion.

Lemma BinaryInsertionSort_conforms rest run :
  incl run L -> incl rest L -> StronglySorted le run ->
  StronglySorted le (BinaryInsertionSort f run rest) /\
  (forall x, In x L ->
     ties c x (BinaryInsertionSort f run rest) = ties c x (run ++ rest)).
Proof.
  unfold BinaryInsertionSort. revert run.
  induction rest as [| pivot rest IH]; intros run Hrun Hrest HS.
  - simpl. rewrite app_nil_r. auto.
  - assert (In pivot L) as Hp by (apply Hrest; now left).
    assert (incl rest L) as Hrest' by (intros z Hz; apply Hrest; now right).
    assert (incl (binary_insert f run pivot) L) as Hrun'.
    { intros z Hz. apply (Permutation_in z (binary_insert_perm run pivot)) in Hz.
      apply in_app_or in Hz. destruct Hz as [Hz | [<- | []]]; auto. }
    destruct (IH (binary_insert f run pivot) Hrun' Hrest'
                (binary_insert_sorted pivot run Hp Hrun HS)) as [HS' Hties].
    simpl. split; [ assumption | ].
    intros x Hx. rewrite (Hties x Hx).
    change (run ++ pivot :: rest) with (run ++ [pivot] ++ rest).
    rewrite app_assoc. unfold ties. rewrite !(filter_app _ _ rest). f_equal.
    apply (binary_insert_ties pivot run Hp Hrun HS x Hx).
Qed.

Lemma v8_short_sort_conforms_on l :
  incl l L ->
  StronglySorted le (v8_short_sort f l) /\
  (forall x, In x L -> ties c x (v8_short_sort f l) = ties c x l).
Proof.
  intros Hin. unfold v8_short_sort.
  pose proof (CountAndMakeRun_perm l) as Hperm.
  pose proof (CountAndMakeRun_sorted l Hin) as HS.
  pose proof (fun x Hx => CountAndMakeRun_ties l x Hx Hin) as Hties.
  destruct (CountAndMakeRun f l) as [run rest]. cbn [fst snd] in *.
  assert (incl (run ++ rest) L) as Hall
      by (intros z Hz; apply Hin, (Permutation_in z Hperm Hz)).
  destruct (BinaryInsertionSort_conforms rest run) as [HS' Hties'];
    [ intros z Hz; apply Hall, in_or_app; now left
    | intros z Hz; apply Hall, in_or_app; now right
    | assumption | ].
  split; [ assumption | ].
  intros x Hx. rewrite (Hties' x Hx). now apply Hties.
Qed.

End V8ShortFacts.

Lemma v8_short_sort_conforms (A : Type) : sort_conforms (@v8_short_sort A).
Proof.
  constructor.
  - intros f l. apply v8_short_sort_perm.
  - intros f l HC. apply (v8_short_sort_conforms_on f l HC). apply incl_refl.
  - intros f l HC x Hx.
    apply (v8_short_sort_conforms_on f l HC); auto. apply incl_refl.
Qed.

(** Comparison by code unit is a consistent comparator on all strings. *)
Lemma code_unit_compare_consistent (l : list string) :
  consistent_on code_unit_compare l.
Proof.
  assert (forall a b, code_unit_compare a b = 0 <-> a = b) as Heq.
  { intros a b. unfold code_unit_compare.
    pose proof (String_as_OT.cmp_eq a b) as H. unfold String_as_OT.cmp in H.
    destruct (String.compare a b); split; intros H'; try lia;
      try (apply H; reflexivity); apply H in H'; discriminate. }
  assert (forall a b, code_unit_compare a b < 0 <-> String_as_OT.lt a b)
    as Hlt.
  { intros a b. unfold code_unit_compare.
    pose proof (String_as_OT.cmp_lt a b) as H. unfold String_as_OT.cmp in H.
    destruct (String.compare a b); split; intros H'; try lia;
      try (apply H; reflexivity); apply H in H'; discriminate. }
  assert (forall a b, code_unit_compare a b > 0 <-> String_as_OT.lt b a)
    as Hgt.
  { intros a b. rewrite <- Hlt. unfold code_unit_compare.
    pose proof (String_as_OT.cmp_antisym a b) as H.
    unfold String_as_OT.cmp in H. rewrite H.
    destruct (String.compare b a); simpl; lia. }
  constructor.
  - intros a _. now apply Heq.
  - intros a b _ _ H. apply Heq. apply Heq in H. now subst.
  - intros a b d _ _ _ H1 H2. apply Heq. apply Heq in H1, H2. congruence.
  - intros a b d _ _ _ H1 H2. apply Hlt. apply Hlt in H1, H2.
    now apply String_as_OT.lt_trans with b.
  - intros a b d _ _ _ H1 H2. apply Hgt. apply Hgt in H1, H2.
    now apply String_as_OT.lt_trans with b.
Qed.

Lemma reference_conforming : conforming reference.
Proof.
  constructor.
  - intros A. apply isort_conforms.
  - apply code_unit_compare_consistent.
Qed.

Lemma v8_short_conforming : conforming v8_short.
Proof.
  constructor.
  - intros A. apply v8_short_sort_conforms.
  - apply code_unit_compare_consistent.
Qed.

End JsFacts.

(** * The deadlines table: sorting, filtering, sort state, empty states *)

Module DeadlinesSpec.
Import Js ListFacts JsFacts Deadlines.

Local Open Scope Z_scope.
Local Open Scope string_scope.

Lemma precedes_filter {A} (P : A -> bool) (a b : A) (l s : list A) :
  P a = true -> P b = true -> filter P s = filter P l ->
  precedes a b l -> precedes a b s.
Proof.
  intros Ha Hb Heq (l1 & l2 & l3 & ->).
  rewrite filter_app in Heq. simpl in Heq. rewrite Ha in Heq.
  rewrite filter_app in Heq. simpl in Heq. rewrite Hb in Heq.
  destruct (filter_split P s _ _ a Heq) as (s1 & s2 & -> & _ & H2).
  destruct (filter_split P s2 _ _ b H2) as (s3 & s4 & -> & _ & _).
  now exists s1, s3, s4.
Qed.

(** ** The comparator of sortDeadlines *)

Section Comparator.
Variable E : Engine.

Lemma comparator_numeric field a b :
  field <> by_alert_name ->
  key_parses E field a = true -> key_parses E field b = true ->
  SortCompare (comparator E field asc) a b = zkey E field a - zkey E field b /\
  SortCompare (comparator E field desc) a b
    = - zkey E field a - - zkey E field b.
Proof.
  intros Hf Ha Hb. unfold SortCompare, comparator, zkey, sort_key.
  destruct field; try congruence; simpl in *;
    repeat match goal with
    | |- context [getTime E ?t] => destruct (getTime E t)
    end; simpl in *; try discriminate; split; f_equal; lia.
Qed.

Lemma comparator_consistent field dir l :
  conforming E ->
  Forall (fun r => key_parses E field r = true) l ->
  consistent_on (SortCompare (comparator E field dir)) l.
Proof.
  intros HE Hl. rewrite Forall_forall in Hl.
  destruct (SortField_eqb field by_alert_name) eqn:Hname.
  - destruct field; try discriminate.
    pose proof (consistent_on_map (fun r => nullish (alert_name r) "")
                  (localeCompare E) l (engine_collation HE _)) as HC.
    destruct dir.
    + exact HC.
    + apply consistent_on_opp in HC.
      revert HC. apply consistent_on_ext. reflexivity.
  - assert (field <> by_alert_name) as Hf
        by (intros ->; discriminate).
    destruct dir.
    + apply consistent_on_ext with
        (c' := fun a b => zkey E field a - zkey E field b).
      * intros a b Ha Hb.
        apply (comparator_numeric field a b Hf (Hl a Ha) (Hl b Hb)).
      * apply consistent_on_key with (key := zkey E field). reflexivity.
    + apply consistent_on_ext with
        (c' := fun a b => - zkey E field a - - zkey E field b).
      * intros a b Ha Hb.
        apply (comparator_numeric field a b Hf (Hl a Ha) (Hl b Hb)).
      * apply consistent_on_key with (key := fun r => - zkey E field r).
        reflexivity.
Qed.

(** Equal keys tie. *)
Lemma equal_keys_tie field dir a b :
  conforming E ->
  Key_eqb (sort_key E field a) (sort_key E field b) = true ->
  SortCompare (comparator E field dir) a b = 0.
Proof.
  intros HE. unfold SortCompare, comparator, sort_key, Key_eqb.
  destruct field; simpl.
  - destruct (String.eqb_spec (nullish (alert_name a) "")
                (nullish (alert_name b) "")) as [-> | ]; [ | discriminate ].
    intros _.
    pose proof (cf_refl (engine_collation HE [nullish (alert_name b) ""])
                  _ (or_introl eq_refl)) as H.
    destruct dir; simpl; rewrite H; reflexivity.
  - destruct (getTime E (created_at a)), (getTime E (created_at b));
      try discriminate.
    intros H%Z.eqb_eq. subst. destruct dir; simpl; f_equal; lia.
  - destruct (getTime E (deadline_time a)), (getTime E (deadline_time b));
      try discriminate.
    intros H%Z.eqb_eq. subst. destruct dir; simpl; f_equal; lia.
  - intros H%Z.eqb_eq. rewrite H. destruct dir; simpl; f_equal; lia.
Qed.

Lemma Key_eqb_refl field r :
  key_parses E field r = true ->
  Key_eqb (sort_key E field r) (sort_key E field r) = true.
Proof.
  unfold key_parses, sort_key, Key_eqb.
  destruct field; simpl.
  - intros _. apply String.eqb_refl.
  - destruct (getTime E (created_at r)); [ discriminate | ].
    intros _. apply Z.eqb_refl.
  - destruct (getTime E (deadline_time r)); [ discriminate | ].
    intros _. apply Z.eqb_refl.
  - intros _. apply Z.eqb_refl.
Qed.

Lemma Key_eqb_trans (a b k : Key) :
  Key_eqb a k = true -> Key_eqb b k = true -> Key_eqb b a = true.
Proof.
  unfold Key_eqb.
  destruct a as [[| x] | s], b as [[| y] | t], k as [[| z] | u];
    try discriminate.
  - intros H1%Z.eqb_eq H2%Z.eqb_eq. apply Z.eqb_eq. congruence.
  - intros H1%String.eqb_eq H2%String.eqb_eq. apply String.eqb_eq.
    congruence.
Qed.

(** A comparison that involves a record whose timestamp does not parse is
    NaN, which the sort reads as a tie. *)
Lemma unparsed_is_NaN field dir a b :
  key_parses E field a = false ->
  comparator E field dir a b = NaN /\ comparator E field dir b a = NaN.
Proof.
  unfold key_parses, comparator.
  destruct field; simpl; try discriminate.
  - destruct (getTime E (created_at a)); [ | discriminate ].
    intros _. destruct (getTime E (created_at b)), dir; auto.
  - destruct (getTime E (deadline_time a)); [ | discriminate ].
    intros _. destruct (getTime E (deadline_time b)), dir; auto.
Qed.

End Comparator.

(** ** sortDeadlines on a conforming engine *)

Section OnEngine.
Variable E : Engine.
Hypothesis HE : conforming E.

Lemma sortDeadlines_perm l field dir :
  Permutation (sortDeadlines E l field dir) l.
Proof. apply (sort_permutation (engine_sort HE _)). Qed.

(** C1 (as amended): sorting by a timestamp field never fails, whatever the
    fields hold: the result is a rearrangement of the input, in both
    directions.  A record whose timestamp is missing or does not parse makes
    every comparison it takes part in NaN, which the sort reads as a tie, in
    both directions and on both sides; it is not ranked before the others.
    In particular a list in which no timestamp parses is returned in its
    input order. *)
Theorem sort_with_unparsed_timestamps l field dir :
  Permutation (sortDeadlines E l field dir) l /\
  (forall a b, key_parses E field a = false ->
     (comparator E field dir a b = NaN /\
      SortCompare (comparator E field dir) a b = 0) /\
     (comparator E field dir b a = NaN /\
      SortCompare (comparator E field dir) b a = 0)) /\
  (Forall (fun r => key_parses E field r = false) l ->
     sortDeadlines E l field dir = l).
Proof.
  split; [ apply sortDeadlines_perm | ].
  assert (forall a b, key_parses E field a = false ->
     (comparator E field dir a b = NaN /\
      SortCompare (comparator E field dir) a b = 0) /\
     (comparator E field dir b a = NaN /\
      SortCompare (comparator E field dir) b a = 0)) as Hnan.
  { intros a b Ha.
    destruct (unparsed_is_NaN E field dir a b Ha) as [H1 H2].
    unfold SortCompare. rewrite H1, H2. auto. }
  split; [ exact Hnan | ].
  intros Hl. rewrite Forall_forall in Hl.
  unfold sortDeadlines. apply sort_all_ties; [ apply (engine_sort HE) | ].
  intros a b Ha _. apply (Hnan a b (Hl a Ha)).
Qed.

(** C3: with the filter on, the rows on display are exactly the fetched
    records with [missed = true] (each of them, and nothing else); with the
    filter off they are all the fetched records.  Switching the filter leaves
    the query's argument as it was, so nothing is fetched again. *)
Theorem filter_shows_exactly_missed st l :
  let rows :=
    rows_of (Deadlines E st {| data := Some l; isLoading := false |}) in
  (showMissedOnly st = true ->
     Permutation rows (filter missed l) /\
     Forall (fun r => missed r = true) rows /\
     (forall r, In r l -> missed r = true -> In r rows)) /\
  (showMissedOnly st = false -> Permutation rows l) /\
  (forall p checked,
     request p (setShowMissedOnly checked st) = request p st).
Proof.
  assert (rows_of (Deadlines E st {| data := Some l; isLoading := false |})
          = sortDeadlines E
              (if showMissedOnly st then filter missed l else l)
              (sortField st) (sortDir st)
          \/ (l = [] /\
              rows_of (Deadlines E st {| data := Some l; isLoading := false |})
              = [])) as Hrows.
  { unfold Deadlines. simpl. destruct l; [ right; auto | left; reflexivity ]. }
  cbv zeta. split; [ | split ].
  - intros Hs.
    assert (Permutation
              (rows_of (Deadlines E st {| data := Some l; isLoading := false |}))
              (filter missed l)) as HP.
    { destruct Hrows as [-> | [-> ->]]; [ | reflexivity ].
      rewrite Hs. apply sortDeadlines_perm. }
    split; [ exact HP | split ].
    + apply (Permutation_Forall (Permutation_sym HP)).
      apply Forall_forall. intros r Hr. now apply filter_In in Hr.
    + intros r Hr Hm. apply (Permutation_in r (Permutation_sym HP)).
      apply filter_In. auto.
  - intros Hs. destruct Hrows as [-> | [-> ->]]; [ | reflexivity ].
    rewrite Hs. apply sortDeadlines_perm.
  - reflexivity.
Qed.

(** C4 (as amended): for every list in which the timestamp the sort reads
    parses in every record (no condition when sorting by [missed] or by
    [alert_name]), every field and both directions, sorting is stable: the
    records that share a sort key form the same sequence in the output as in
    the input, so of two records with equal keys the one that came first
    still comes first. *)
Theorem sortDeadlines_stable l field dir :
  Forall (fun r => key_parses E field r = true) l ->
  (forall k,
     filter (fun r => Key_eqb (sort_key E field r) k)
       (sortDeadlines E l field dir)
     = filter (fun r => Key_eqb (sort_key E field r) k) l) /\
  (forall a b,
     Key_eqb (sort_key E field a) (sort_key E field b) = true ->
     precedes a b l -> precedes a b (sortDeadlines E l field dir)).
Proof.
  intros Hl.
  pose proof (comparator_consistent E field dir l HE Hl) as HC.
  assert (forall k,
     filter (fun r => Key_eqb (sort_key E field r) k)
       (sortDeadlines E l field dir)
     = filter (fun r => Key_eqb (sort_key E field r) k) l) as Hclass.
  { intros k.
    set (P := fun r => Key_eqb (sort_key E field r) k).
    destruct (filter P l) as [| x rest] eqn:Hf.
    - apply filter_none. intros r Hr.
      apply (Permutation_in r (sortDeadlines_perm l field dir)) in Hr.
      destruct (P r) eqn:HP; [ | reflexivity ].
      assert (In r (filter P l)) as Hin by (apply filter_In; auto).
      rewrite Hf in Hin. destruct Hin.
    - rewrite <- Hf.
      assert (In x (filter P l)) as Hx by (rewrite Hf; now left).
      apply filter_In in Hx. destruct Hx as [Hx HPx].
      set (Q := fun y => Z.eqb (SortCompare (comparator E field dir) x y) 0).
      assert (forall r, P r = true -> Q r = true) as Hsub.
      { intros r HPr. unfold Q. apply Z.eqb_eq.
        apply equal_keys_tie; [ exact HE | ].
        apply (Key_eqb_trans _ _ k); assumption. }
      rewrite <- (filter_sub P Q (sortDeadlines E l field dir))
        by (intros; now apply Hsub).
      rewrite <- (filter_sub P Q l) by (intros; now apply Hsub).
      f_equal.
      apply (sort_stable (engine_sort HE _) HC x Hx). }
  split; [ exact Hclass | ].
  intros a b Hab Hprec.
  assert (In a l /\ In b l) as [Ha Hb].
  { destruct Hprec as (l1 & l2 & l3 & ->). split.
    - apply in_or_app. right. now left.
    - apply in_or_app. right. right. apply in_or_app. right. now left. }
  rewrite Forall_forall in Hl.
  apply (precedes_filter
           (fun r => Key_eqb (sort_key E field r) (sort_key E field b))
           a b l); auto.
  apply Key_eqb_refl. now apply Hl.
Qed.

(** C8: sorting by [missed] compares [Number(missed)], 0 for false and 1 for
    true, by subtraction.  For the records 1 (missed, due
    2024-01-01T00:00:00Z) and 2 (on track, due 2024-01-02T00:00:00Z),
    whatever their other fields, the initial sort shows 1 then 2, and one
    click on the status header shows 2 then 1. *)
Theorem missed_sort_example n1 d1 c1 n2 d2 c2 :
  Date_parse E "2024-01-01T00:00:00Z" = Num 1704067200000 ->
  Date_parse E "2024-01-02T00:00:00Z" = Num 1704153600000 ->
  let r1 := {| id := 1; alert_name := n1; alert_description := d1;
               deadline_time := Text "2024-01-01T00:00:00Z";
               created_at := c1; missed := true |} in
  let r2 := {| id := 2; alert_name := n2; alert_description := d2;
               deadline_time := Text "2024-01-02T00:00:00Z";
               created_at := c2; missed := false |} in
  let q := {| data := Some [r1; r2]; isLoading := false |} in
  (forall left right dir,
     comparator E by_missed dir left right
     = let comparison := Num (Z.b2z (missed left) - Z.b2z (missed right)) in
       match dir with asc => comparison | desc => neg comparison end) /\
  map id (rows_of (Deadlines E initial q)) = [1; 2] /\
  map id (rows_of (Deadlines E (handleSort by_missed initial) q)) = [2; 1].
Proof.
  intros H1 H2 r1 r2 q. split; [ | split ].
  - intros left right dir. destruct dir; reflexivity.
  - unfold Deadlines, q. simpl. unfold sortDeadlines.
    rewrite sort_pair_lt; [ reflexivity | apply (engine_sort HE) | | ].
    + apply comparator_consistent; [ exact HE | ].
      repeat constructor; simpl; [ rewrite H1 | rewrite H2 ]; reflexivity.
    + unfold SortCompare, comparator. simpl. rewrite H1, H2. simpl. lia.
  - unfold Deadlines, q. simpl. unfold sortDeadlines.
    rewrite sort_pair_gt; [ reflexivity | apply (engine_sort HE) | | ].
    + apply comparator_consistent; [ exact HE | ].
      repeat constructor.
    + unfold SortCompare, comparator. simpl. lia.
Qed.

End OnEngine.

(** ** The sort state and the empty states *)

(** C5: the sort state starts at ([deadline_time], ascending).  A click on
    the active field flips the direction and nothing else, so two clicks in a
    row bring the state back (ascending again when it was ascending); a click
    on another field selects it with the direction ascending, whatever the
    direction was. *)
Theorem handleSort_transitions :
  (sortField initial = by_deadline_time /\ sortDir initial = asc) /\
  (forall st,
     handleSort (sortField st) st
     = {| sortField := sortField st;
          sortDir := match sortDir st with asc => desc | desc => asc end;
          showMissedOnly := showMissedOnly st |}) /\
  (forall st, handleSort (sortField st) (handleSort (sortField st) st) = st) /\
  (forall st field,
     field <> sortField st ->
     handleSort field st
     = {| sortField := field; sortDir := asc;
          showMissedOnly := showMissedOnly st |}).
Proof.
  repeat split.
  - intros [f d s]. unfold handleSort. simpl. destruct f; reflexivity.
  - intros [f d s]. unfold handleSort. simpl.
    destruct f, d; reflexivity.
  - intros [f d s] field Hne. unfold handleSort. simpl in *.
    destruct f, field; try reflexivity; congruence.
Qed.

(** C10: once loading is over, absent data renders the "no deadlines"
    message, the same view as an empty list; the table, and with it the
    filter and the sort, is reached only with data that is present and not
    empty. *)
Theorem absent_data_shows_no_deadlines E st :
  Deadlines E st {| data := None; isLoading := false |} = NoDeadlines /\
  Deadlines E st {| data := Some []; isLoading := false |} = NoDeadlines /\
  (forall q rows,
     Deadlines E st q = Table rows ->
     exists deadlines,
       isLoading q = false /\ data q = Some deadlines /\ deadlines <> [] /\
       rows = sortDeadlines E
                (if showMissedOnly st then filter missed deadlines
                 else deadlines)
                (sortField st) (sortDir st)).
Proof.
  repeat split.
  intros [d loading] rows. unfold Deadlines. simpl.
  destruct loading; [ discriminate | ].
  destruct d as [[| r l] |]; try discriminate.
  intros H. injection H as <-.
  exists (r :: l). repeat split. discriminate.
Qed.

(** ** The theorems at work on the reference engine, and the claims that
    fail *)

Lemma handleSort_transitions_witness :
  by_missed <> sortField initial /\
  handleSort by_missed initial
  = {| sortField := by_missed; sortDir := asc; showMissedOnly := false |} /\
  handleSort by_missed (handleSort by_missed initial)
  = {| sortField := by_missed; sortDir := desc; showMissedOnly := false |} /\
  handleSort by_deadline_time (handleSort by_deadline_time initial) = initial /\
  handleSort by_alert_name
    (handleSort by_missed (handleSort by_missed initial))
  = {| sortField := by_alert_name; sortDir := asc; showMissedOnly := false |}.
Proof.
  destruct handleSort_transitions as (_ & Hflip & Htwice & Hswitch).
  assert (by_missed <> sortField initial) as Hne by discriminate.
  assert (by_alert_name
          <> sortField (handleSort by_missed (handleSort by_missed initial)))
    as Hne' by discriminate.
  split; [ exact Hne | ].
  split; [ exact (Hswitch initial by_missed Hne) | ].
  split; [ exact (Hflip (handleSort by_missed initial)) | ].
  split; [ exact (Htwice initial) | ].
  exact (Hswitch (handleSort by_missed (handleSort by_missed initial))
           by_alert_name Hne').
Defined.

Lemma absent_data_shows_no_deadlines_witness :
  Deadlines reference initial {| data := Some dated; isLoading := false |}
  = Table (sortDeadlines reference dated by_deadline_time asc) /\
  exists deadlines,
    data {| data := Some dated; isLoading := false |} = Some deadlines /\
    deadlines <> [].
Proof.
  assert (Deadlines reference initial
            {| data := Some dated; isLoading := false |}
          = Table (sortDeadlines reference dated by_deadline_time asc))
    as Hview by reflexivity.
  split; [ exact Hview | ].
  destruct (absent_data_shows_no_deadlines reference initial)
    as (_ & _ & Htable).
  destruct (Htable _ _ Hview) as (deadlines & _ & Hdata & Hne & _).
  exists deadlines. split; assumption.
Defined.

Lemma sort_with_unparsed_timestamps_witness :
  (conforming reference /\
   key_parses reference by_deadline_time bare = false /\
   Forall (fun r => key_parses reference by_deadline_time r = false)
     [bare; garbled]) /\
  Permutation (sortDeadlines reference [bare; garbled] by_deadline_time desc)
    [bare; garbled] /\
  (comparator reference by_deadline_time desc bare due = NaN /\
   SortCompare (comparator reference by_deadline_time desc) bare due = 0) /\
  (comparator reference by_deadline_time desc due bare = NaN /\
   SortCompare (comparator reference by_deadline_time desc) due bare = 0) /\
  sortDeadlines reference [bare; garbled] by_deadline_time desc
  = [bare; garbled].
Proof.
  assert (Forall (fun r => key_parses reference by_deadline_time r = false)
            [bare; garbled]) as Hnone by (repeat constructor).
  destruct (sort_with_unparsed_timestamps reference reference_conforming
              [bare; garbled] by_deadline_time desc) as (Hperm & Hnan & Hsame).
  destruct (Hnan bare due eq_refl) as [Hleft Hright].
  split; [ split; [ exact reference_conforming | split;
                    [ reflexivity | exact Hnone ] ] | ].
  split; [ exact Hperm | ].
  split; [ exact Hleft | ].
  split; [ exact Hright | exact (Hsame Hnone) ].
Defined.

(** C1, as the claim words it, fails: an absent deadline is not ranked as
    the earliest.  Ascending, the record without a deadline stays behind the
    one with a deadline; descending, it stays in front of it.  The same holds
    for a deadline that does not parse, and on V8's sort. *)
Lemma unparsed_timestamp_is_not_earliest :
  (sortDeadlines reference [due; bare] by_deadline_time asc = [due; bare] /\
   ordered_as_earliest reference by_deadline_time asc
     (sortDeadlines reference [due; bare] by_deadline_time asc) = false) /\
  (sortDeadlines reference [bare; due] by_deadline_time desc = [bare; due] /\
   ordered_as_earliest reference by_deadline_time desc
     (sortDeadlines reference [bare; due] by_deadline_time desc) = false) /\
  (sortDeadlines reference [due; garbled] by_deadline_time asc
   = [due; garbled] /\
   ordered_as_earliest reference by_deadline_time asc
     (sortDeadlines reference [due; garbled] by_deadline_time asc) = false) /\
  (sortDeadlines v8_short [due; bare] by_deadline_time asc = [due; bare] /\
   sortDeadlines v8_short [bare; due] by_deadline_time desc = [bare; due]).
Proof. vm_compute. repeat split. Qed.

Lemma filter_shows_exactly_missed_witness :
  let shown st :=
    rows_of (Deadlines reference st
               {| data := Some dated; isLoading := false |}) in
  conforming reference /\
  (Permutation (shown (setShowMissedOnly true initial)) (filter missed dated) /\
   Forall (fun r => missed r = true) (shown (setShowMissedOnly true initial)) /\
   In (fixture 3 (january "2") true) (shown (setShowMissedOnly true initial)))
  /\
  Permutation (shown initial) dated /\
  request {| dagId := Some "etl"; runId := None |}
    (setShowMissedOnly true initial)
  = request {| dagId := Some "etl"; runId := None |} initial.
Proof.
  cbv zeta.
  destruct (filter_shows_exactly_missed reference reference_conforming
              (setShowMissedOnly true initial) dated) as (Hon & _ & Hreq).
  destruct (filter_shows_exactly_missed reference reference_conforming
              initial dated) as (_ & Hoff & _).
  destruct (Hon eq_refl) as (Hperm & Hall & Hin).
  split; [ exact reference_conforming | ].
  split; [ split; [ exact Hperm | split; [ exact Hall | ] ] | ].
  - apply Hin; [ simpl; auto | reflexivity ].
  - split; [ exact (Hoff eq_refl) | ].
    exact (Hreq {| dagId := Some "etl"; runId := None |} true).
Defined.

Lemma sortDeadlines_stable_witness :
  let second := fixture 2 (january "2") true in
  let third := fixture 3 (january "2") true in
  (conforming reference /\
   Forall (fun r => key_parses reference by_deadline_time r = true) dated /\
   Key_eqb (sort_key reference by_deadline_time second)
     (sort_key reference by_deadline_time third) = true /\
   precedes second third dated) /\
  filter (fun r => Key_eqb (sort_key reference by_deadline_time r)
                     (sort_key reference by_deadline_time second))
    (sortDeadlines reference dated by_deadline_time desc)
  = [second; third] /\
  precedes second third (sortDeadlines reference dated by_deadline_time desc).
Proof.
  cbv zeta.
  assert (Forall (fun r => key_parses reference by_deadline_time r = true)
            dated) as Hparsed
    by (repeat constructor).
  assert (precedes (fixture 2 (january "2") true) (fixture 3 (january "2") true)
            dated) as Hbefore
    by (exists [fixture 1 (january "3") false], [],
          [fixture 4 (january "1") false]; reflexivity).
  destruct (sortDeadlines_stable reference reference_conforming
              dated by_deadline_time desc Hparsed) as [Hclass Hpair].
  split; [ split; [ exact reference_conforming | split;
                    [ exact Hparsed | split;
                      [ reflexivity | exact Hbefore ] ] ] | ].
  split.
  - rewrite Hclass. reflexivity.
  - exact (Hpair (fixture 2 (january "2") true) (fixture 3 (january "2") true)
             eq_refl Hbefore).
Defined.

(** C4, as the claim words it, fails: with deadlines that do not parse in
    the list, V8's sort returns record 7 ahead of record 5, which is due on
    the same day and came first in the input. *)
Lemma unparsed_timestamps_break_stability :
  conforming v8_short /\
  Key_eqb (sort_key v8_short by_deadline_time (fixture 5 (january "5") false))
    (sort_key v8_short by_deadline_time (fixture 7 (january "5") false))
  = true /\
  map id mixed = [1; 2; 3; 4; 5; 6; 7] /\
  map id (sortDeadlines v8_short mixed by_deadline_time asc)
  = [1; 2; 6; 7; 3; 4; 5] /\
  map id
    (filter (fun r => Key_eqb (sort_key v8_short by_deadline_time r)
                        (KNumber (Num 1704412800000))) mixed) = [5; 7] /\
  map id
    (filter (fun r => Key_eqb (sort_key v8_short by_deadline_time r)
                        (KNumber (Num 1704412800000)))
       (sortDeadlines v8_short mixed by_deadline_time asc)) = [7; 5].
Proof. split; [ exact v8_short_conforming | vm_compute; repeat split ]. Qed.

Lemma missed_sort_example_witness :
  (conforming reference /\
   Date_parse reference "2024-01-01T00:00:00Z" = Num 1704067200000 /\
   Date_parse reference "2024-01-02T00:00:00Z" = Num 1704153600000) /\
  let r1 := {| id := 1; alert_name := None; alert_description := None;
               deadline_time := Text "2024-01-01T00:00:00Z";
               created_at := Absent; missed := true |} in
  let r2 := {| id := 2; alert_name := None; alert_description := None;
               deadline_time := Text "2024-01-02T00:00:00Z";
               created_at := Absent; missed := false |} in
  let q := {| data := Some [r1; r2]; isLoading := false |} in
  (forall left right dir,
     comparator reference by_missed dir left right
     = let comparison := Num (Z.b2z (missed left) - Z.b2z (missed right)) in
       match dir with asc => comparison | desc => neg comparison end) /\
  map id (rows_of (Deadlines reference initial q)) = [1; 2] /\
  map id (rows_of (Deadlines reference (handleSort by_missed initial) q))
  = [2; 1].
Proof.
  split.
  - split; [ exact reference_conforming | split; reflexivity ].
  - exact (missed_sort_example reference reference_conforming
             None None Absent None None Absent eq_refl eq_refl).
Defined.

End DeadlinesSpec.

(** * The grid bar *)

Module BarSpec.
Import Bar.

Local Open Scope float_scope.

(** The height the icons are placed with is guarded: with [max > 0] it is
    [(run.duration / max) * 100]; with [max] zero, negative or NaN it is 0
    and no division takes place. *)
Lemma barHeightPx_guarded (max duration : float) :
  ((0 <? max) = true -> barHeightPx max duration = duration / max * 100) /\
  ((0 <? max) = false -> barHeightPx max duration = 0).
Proof. unfold barHeightPx. split; intros ->; reflexivity. Qed.

(** A quotient by zero, times 100, is NaN or an infinity. *)
Lemma quotient_by_zero (d : float) :
  d / 0 * 100 = nan \/ d / 0 * 100 = infinity \/ d / 0 * 100 = neg_infinity.
Proof.
  assert (Prim2SF (d / 0 * 100)
          = SF64mul (SF64div (Prim2SF d) (S754_zero false))
              (S754_finite false 7036874417766400 (-46))) as H
    by (rewrite mul_spec, div_spec; reflexivity).
  destruct (Prim2SF d) as [s | s | | s m e]; cbn in H.
  - left. apply Prim2SF_inj. rewrite H. reflexivity.
  - destruct s; [ right; right | right; left ];
      apply Prim2SF_inj; rewrite H; reflexivity.
  - left. apply Prim2SF_inj. rewrite H. reflexivity.
  - destruct s; [ right; right | right; left ];
      apply Prim2SF_inj; rewrite H; reflexivity.
Qed.

(** C9: the bar's own height is not guarded.  Where [max > 0] holds, the
    height handed to [GridButton] is the guarded [barHeightPx].  With
    [max = 0] it is, for every duration, NaN or an infinity, while
    [barHeightPx] is 0: [NaN] for the duration 0, [Infinity] for the
    duration 2.  With the negative [max = -4] and the duration 2 it is -50,
    while [barHeightPx] is 0. *)
Theorem gridButtonHeight_unguarded (max duration : float) :
  ((0 <? max) = true ->
   gridButtonHeight max duration = barHeightPx max duration) /\
  barHeightPx 0 duration = 0 /\
  (gridButtonHeight 0 duration = nan \/
   gridButtonHeight 0 duration = infinity \/
   gridButtonHeight 0 duration = neg_infinity) /\
  gridButtonHeight 0 0 = nan /\
  gridButtonHeight 0 2 = infinity /\
  barHeightPx (-4) 2 = 0 /\
  gridButtonHeight (-4) 2 = -50.
Proof.
  split.
  { intros Hpos. unfold gridButtonHeight, barHeightPx. rewrite Hpos.
    reflexivity. }
  split; [ reflexivity | ].
  split; [ apply quotient_by_zero | ].
  repeat split.
Qed.

Lemma gridButtonHeight_unguarded_witness :
  (0 <? 4) = true /\
  gridButtonHeight 4 2 = 50 /\ barHeightPx 4 2 = 50 /\
  barHeightPx 0 2 = 0 /\ gridButtonHeight 0 2 = infinity.
Proof.
  destruct (gridButtonHeight_unguarded 4 2)
    as (Hagree & _ & _ & _ & Hinf & _).
  split; [ reflexivity | ].
  split; [ rewrite (Hagree eq_refl); reflexivity | ].
  split; [ reflexivity | ].
  split; [ reflexivity | exact Hinf ].
Defined.

End BarSpec.

(** * The failed-icon plugin *)

Module FailedIconPluginSpec.
Import FailedIconPlugin.

Local Open Scope float_scope.
Local Open Scope string_scope.

Section OnCanvas.
Variable Style : Type.
Variable parseColor : string -> option Style.

Ltac fields :=
  cbn [state saved path bitmap fillStyle strokeStyle lineWidth font textAlign
       textBaseline].

(** One icon: the state and the stack of saved states come back as they
    were, the path is left holding the outline traced, and the painting
    operations of the icon are added. *)
Lemma drawIcon_effect color element (c : Context2D Style) :
  drawIcon parseColor color element c
  = {| state := state c; saved := saved c; path := triangle element;
       bitmap := (bitmap c ++ marks parseColor color (state c) element)%list
    |}.
Proof.
  destruct c as [[fs ss lw fn ta tb] sv pa bm].
  unfold drawIcon, run. cbn [fold_left].
  unfold save. fields.
  unfold beginPath, with_path at 1. fields.
  unfold moveTo, with_path at 1. fields.
  unfold lineTo at 2, with_path at 1. fields.
  unfold lineTo, with_path at 1. fields.
  unfold closePath, with_path. fields.
  fold (triangle element).
  unfold set_fillStyle at 2, with_state at 1, fill, paint. fields.
  unfold set_strokeStyle, with_state at 1. fields.
  unfold set_lineWidth.
  change ((0 <? 1)%float && is_finite 1) with true. cbv iota.
  unfold with_state at 1, stroke, paint. fields.
  unfold set_fillStyle, set_font, with_state. fields.
  unfold set_textAlign.
  change (existsb (String.eqb "center")
            ["start"; "end"; "left"; "right"; "center"]) with true.
  cbv iota. unfold with_state. fields.
  unfold set_textBaseline.
  change (existsb (String.eqb "middle")
            ["top"; "hanging"; "middle"; "alphabetic"; "ideographic";
             "bottom"]) with true.
  cbv iota. unfold with_state. fields.
  unfold fillText, marks, glyph_painted, glyph_y.
  destruct (finite (x element)
              (y element - ICON_OFFSET - ICON_SIZE + ICON_SIZE * 0.55)).
  - unfold paint, restore. fields.
    rewrite <- !app_assoc. reflexivity.
  - unfold restore. fields. rewrite <- !app_assoc.
    reflexivity.
Qed.

Lemma forEach_effect color elements failedIndices (c : Context2D Style) :
  fold_left (forEach_callback parseColor color elements) failedIndices c
  = {| state := state c; saved := saved c;
       path := last_path (path c) (found elements failedIndices);
       bitmap := (bitmap c
                  ++ flat_map (marks parseColor color (state c))
                       (found elements failedIndices))%list
    |}.
Proof.
  revert c. induction failedIndices as [| index rest IH]; intros c.
  - simpl. rewrite app_nil_r. destruct c; reflexivity.
  - change (fold_left (forEach_callback parseColor color elements)
              (index :: rest) c)
      with (fold_left (forEach_callback parseColor color elements) rest
              (forEach_callback parseColor color elements c index)).
    rewrite IH. clear IH. unfold forEach_callback, found.
    cbn [flat_map].
    destruct (element_at elements index) as [element |].
    + rewrite drawIcon_effect. cbn [state saved path bitmap].
      unfold last_path. rewrite flat_map_app, fold_left_app, <- app_assoc.
      cbn [fold_left flat_map]. rewrite app_nil_r. reflexivity.
    + reflexivity.
Qed.

Lemma found_nil failedIndices : found [] failedIndices = [].
Proof.
  induction failedIndices as [| index rest IH]; [ reflexivity | ].
  unfold found in *. cbn [flat_map]. rewrite IH.
  unfold element_at. destruct (index <? 0)%Z; [ reflexivity | ].
  destruct (Z.to_nat index); reflexivity.
Qed.

Lemma found_none elements failedIndices :
  (forall index, In index failedIndices -> element_at elements index = None) ->
  found elements failedIndices = [].
Proof.
  induction failedIndices as [| index rest IH]; intros H; [ reflexivity | ].
  unfold found in *. cbn [flat_map].
  rewrite (H index (or_introl eq_refl)). apply IH.
  intros i Hi. apply H. now right.
Qed.

Lemma found_In elements failedIndices index element :
  In index failedIndices -> element_at elements index = Some element ->
  In element (found elements failedIndices).
Proof.
  intros Hin He. unfold found. apply in_flat_map.
  exists index. rewrite He. split; [ assumption | now left ].
Qed.

(** What a call of the hook does to the chart. *)
Lemma afterDatasetsDraw_effect failedIndices color (chart : Chart Style) :
  afterDatasetsDraw parseColor failedIndices color chart
  = {| ctx :=
         {| state := state (ctx chart); saved := saved (ctx chart);
            path := last_path (path (ctx chart))
                      (found (getDatasetMeta chart 1) failedIndices);
            bitmap := (bitmap (ctx chart)
                       ++ flat_map (marks parseColor color (state (ctx chart)))
                            (found (getDatasetMeta chart 1) failedIndices))%list
         |};
       metas := metas chart |}.
Proof.
  unfold afterDatasetsDraw.
  destruct failedIndices as [| index rest].
  - simpl. rewrite app_nil_r. destruct chart as [[? ? ? ?] ?]; reflexivity.
  - destruct (getDatasetMeta chart 1) as [| e els] eqn:Hels.
    + rewrite found_nil. simpl. rewrite app_nil_r.
      destruct chart as [[? ? ? ?] ?]; reflexivity.
    + rewrite forEach_effect. reflexivity.
Qed.

Lemma marks_length color before element :
  List.length (marks parseColor color before element)
  = if glyph_painted element then 3%nat else 2%nat.
Proof. unfold marks. destruct (glyph_painted element); reflexivity. Qed.

Lemma marks_count color before elements :
  List.length (flat_map (marks parseColor color before) elements)
  = (2 * List.length elements
     + List.length (filter glyph_painted elements))%nat.
Proof.
  induction elements as [| e l IH]; [ reflexivity | ].
  cbn [flat_map filter]. rewrite length_app, IH, marks_length.
  destruct (glyph_painted e); simpl; lia.
Qed.

(** C6: the hook paints exactly the icons of the failed indices that have
    an element in the second dataset, in the order of the indices: for each
    the filled triangle, its outline, and the "!" unless its anchor is not
    finite: three painting operations each when every anchor is finite.
    With no failed index, with no rendered element, or with every index out
    of range, it leaves the chart and its context untouched; an index
    without an element is passed over. *)
Theorem draws_exactly_the_found_elements failedIndices color
    (chart : Chart Style) :
  let elements := getDatasetMeta chart 1 in
  let after := afterDatasetsDraw parseColor failedIndices color chart in
  bitmap (ctx after)
  = (bitmap (ctx chart)
     ++ flat_map (marks parseColor color (state (ctx chart)))
          (found elements failedIndices))%list /\
  List.length (bitmap (ctx after))
  = (List.length (bitmap (ctx chart))
     + 2 * List.length (found elements failedIndices)
     + List.length (filter glyph_painted (found elements failedIndices)))%nat /\
  (forallb glyph_painted (found elements failedIndices) = true ->
   List.length (bitmap (ctx after))
   = (List.length (bitmap (ctx chart))
      + 3 * List.length (found elements failedIndices))%nat) /\
  (failedIndices = [] -> after = chart) /\
  (elements = [] -> after = chart) /\
  ((forall index, In index failedIndices ->
      element_at elements index = None) -> after = chart).
Proof.
  cbv zeta. rewrite afterDatasetsDraw_effect. cbn [ctx bitmap].
  assert (found (getDatasetMeta chart 1) failedIndices = [] ->
          {| ctx :=
               {| state := state (ctx chart); saved := saved (ctx chart);
                  path := last_path (path (ctx chart))
                            (found (getDatasetMeta chart 1) failedIndices);
                  bitmap := (bitmap (ctx chart)
                             ++ flat_map
                                  (marks parseColor color (state (ctx chart)))
                                  (found (getDatasetMeta chart 1)
                                     failedIndices))%list |};
             metas := metas chart |} = chart) as Hnone.
  { intros ->. simpl. rewrite app_nil_r.
    destruct chart as [[? ? ? ?] ?]; reflexivity. }
  split; [ reflexivity | ].
  split; [ rewrite length_app, marks_count; lia | ].
  split; [ | repeat split ].
  - intros Hall. rewrite length_app, marks_count.
    assert (filter glyph_painted (found (getDatasetMeta chart 1) failedIndices)
            = found (getDatasetMeta chart 1) failedIndices) as ->.
    { clear Hnone. rewrite forallb_forall in Hall.
      induction (found (getDatasetMeta chart 1) failedIndices) as [| e l IH];
        [ reflexivity | ].
      cbn [filter]. rewrite (Hall e (or_introl eq_refl)). f_equal.
      apply IH. intros e' He'. apply Hall. now right. }
    lia.
  - intros ->. apply Hnone. reflexivity.
  - intros Hels. apply Hnone. rewrite Hels. apply found_nil.
  - intros Hall. apply Hnone. now apply found_none.
Qed.

(** C7 (as amended): the hook leaves the chart's datasets alone.  Each icon
    is drawn between [save] and [restore], so the six properties it sets
    (fill style, stroke style, line width, font, text alignment, text
    baseline) and the stack of saved states are, after every icon and on
    return, what they were before.  The current path is not covered by
    [save] and [restore]: it is left holding the outline of the last
    triangle drawn. *)
Theorem drawing_state_restored failedIndices color (chart : Chart Style) :
  let after := afterDatasetsDraw parseColor failedIndices color chart in
  metas after = metas chart /\
  state (ctx after) = state (ctx chart) /\
  saved (ctx after) = saved (ctx chart) /\
  (forall element c,
     state (drawIcon parseColor color element c) = state c /\
     saved (drawIcon parseColor color element c) = saved c /\
     path (drawIcon parseColor color element c) = triangle element) /\
  path (ctx after)
  = last_path (path (ctx chart))
      (found (getDatasetMeta chart 1) failedIndices).
Proof.
  cbv zeta. rewrite afterDatasetsDraw_effect. cbn [ctx metas state saved path].
  repeat split; rewrite drawIcon_effect; reflexivity.
Qed.

End OnCanvas.

(** [ICON_SIZE * 0.6], the size printed into the font, is the double 8.4. *)
Lemma font_size : (ICON_SIZE * 0.6 = 8.4)%float.
Proof. reflexivity. Qed.

(** An element without a position, as a gap in the data has: the canvas
    ignores the calls that carry NaN, so no outline is traced and no "!" is
    painted; [fill] and [stroke] are carried out on the empty path. *)
Lemma icon_of_a_gap :
  let chart := {| ctx := blank; metas := [ []; [ {| x := 10; y := nan |} ] ] |}
  in
  bitmap (ctx (afterDatasetsDraw css_color [0%Z] "#ff0000" chart))
  = [ Fill [] (255, 0, 0)%N; Stroke [] (255, 0, 0)%N 1 ] /\
  path (ctx (afterDatasetsDraw css_color [0%Z] "#ff0000" chart)) = [].
Proof. vm_compute. split; reflexivity. Qed.

Lemma draws_exactly_the_found_elements_witness :
  (forall index, In index [5%Z; (-1)%Z] ->
     element_at (getDatasetMeta three_points 1) index = None) /\
  afterDatasetsDraw css_color [] "#ff0000" three_points = three_points /\
  afterDatasetsDraw css_color [5%Z; (-1)%Z] "#ff0000" three_points
  = three_points /\
  afterDatasetsDraw css_color [0%Z] "#ff0000" {| ctx := blank; metas := [] |}
  = {| ctx := blank; metas := [] |} /\
  bitmap (ctx (afterDatasetsDraw css_color [5%Z; 2%Z; 0%Z] "#ff0000"
                 three_points))
  = (marks css_color "#ff0000" (state blank) {| x := 30; y := 50 |}
     ++ marks css_color "#ff0000" (state blank) {| x := 10; y := 80 |})%list /\
  forallb glyph_painted
    (found (getDatasetMeta three_points 1) [5%Z; 2%Z; 0%Z]) = true /\
  List.length
    (bitmap (ctx (afterDatasetsDraw css_color [5%Z; 2%Z; 0%Z] "#ff0000"
                    three_points)))
  = 6%nat.
Proof.
  assert (forall index, In index [5%Z; (-1)%Z] ->
            element_at (getDatasetMeta three_points 1) index = None) as Hout
    by (intros index [<- | [<- | []]]; reflexivity).
  split; [ exact Hout | ].
  destruct (draws_exactly_the_found_elements _ css_color [] "#ff0000"
              three_points) as (_ & _ & _ & Hempty & _ & _).
  destruct (draws_exactly_the_found_elements _ css_color [5%Z; (-1)%Z] "#ff0000"
              three_points) as (_ & _ & _ & _ & _ & Hrange).
  destruct (draws_exactly_the_found_elements _ css_color [0%Z] "#ff0000"
              {| ctx := blank; metas := [] |}) as (_ & _ & _ & _ & Hnone & _).
  destruct (draws_exactly_the_found_elements _ css_color [5%Z; 2%Z; 0%Z]
              "#ff0000" three_points) as (Hdrawn & _ & Hthree & _).
  split; [ exact (Hempty eq_refl) | ].
  split; [ exact (Hrange Hout) | ].
  split; [ exact (Hnone eq_refl) | ].
  split; [ rewrite Hdrawn; reflexivity | ].
  split; [ reflexivity | exact (Hthree eq_refl) ].
Defined.

(** C2: for the failed index 2 of a chart whose third point is at (30, 50),
    the hook paints, in red, one triangle with its vertices at (30, 46),
    (23, 32) and (37, 32).  The horizontal edge is at height 32, 18 units
    above the point, and the single vertex at height 46 below it: on the
    canvas, whose y axis grows downward, the triangle points down.  It is
    not the upward-pointing triangle with its base at y - 4. *)
Theorem drawn_triangle_points_down :
  bitmap (ctx (afterDatasetsDraw css_color [2%Z] "#ff0000" three_points))
  = [ Fill (triangle {| x := 30; y := 50 |}) (255, 0, 0)%N;
      Stroke (triangle {| x := 30; y := 50 |}) (255, 0, 0)%N 1;
      FillText "!" 30 39.7 (255, 255, 255)%N
        "bold 8.4px sans-serif" "center" "middle" ] /\
  triangle {| x := 30; y := 50 |}
  = [MoveTo 30 46; LineTo 23 32; LineTo 37 32; ClosePath] /\
  downward_triangle 30 50 (triangle {| x := 30; y := 50 |}) = true /\
  upward_triangle 30 50 (triangle {| x := 30; y := 50 |}) = false.
Proof. vm_compute. repeat split. Qed.

(** C7, as the claim words it, fails: the context after the call is not the
    context before it.  On a context with an empty path, the call leaves the
    path holding the triangle of the last icon. *)
Lemma current_path_is_not_restored :
  path (ctx three_points) = [] /\
  path (ctx (afterDatasetsDraw css_color [2%Z] "#ff0000" three_points))
  = triangle {| x := 30; y := 50 |} /\
  List.length
    (path (ctx (afterDatasetsDraw css_color [2%Z] "#ff0000" three_points)))
  = 4%nat.
Proof. vm_compute. repeat split. Qed.

End FailedIconPluginSpec.

(** * More on conforming sorts *)

Module SortFacts.
Import Js ListFacts JsFacts.

Local Open Scope Z_scope.

Section Unique.
Context {A : Type}.
Variable c : A -> A -> Z.
Variable L : list A.
Hypothesis HC : consistent_on c L.

(** A list has one sorted, stable rearrangement. *)
Lemma stable_sorted_unique s1 s2 :
  incl s1 L -> Permutation s1 s2 ->
  StronglySorted (fun a b => c a b <= 0) s1 ->
  StronglySorted (fun a b => c a b <= 0) s2 ->
  (forall x, In x s1 -> ties c x s1 = ties c x s2) ->
  s1 = s2.
Proof.
  revert s2. induction s1 as [| a s1 IH]; intros s2 Hin Hperm HS1 HS2 Hties.
  - symmetry. now apply Permutation_nil.
  - destruct s2 as [| b s2];
      [ apply Permutation_sym, Permutation_nil in Hperm; discriminate | ].
    assert (In a L) as Ha by (apply Hin; now left).
    assert (In b (a :: s1)) as Hb1
        by (apply (Permutation_in b (Permutation_sym Hperm)); now left).
    assert (In b L) as Hb by (apply Hin; assumption).
    assert (In a (b :: s2)) as Ha2
        by (apply (Permutation_in a Hperm); now left).
    inversion HS1 as [| ? ? HS1' HF1]; subst.
    inversion HS2 as [| ? ? HS2' HF2]; subst.
    rewrite Forall_forall in HF1, HF2.
    pose proof (cf_refl HC a Ha) as Haa.
    assert (c a b = 0) as Hab.
    { assert (c a b <= 0) as H1.
      { destruct Hb1 as [<- | Hb1]; [ lia | now apply HF1 ]. }
      assert (c b a <= 0) as H2.
      { destruct Ha2 as [<- | Ha2]; [ lia | now apply HF2 ]. }
      destruct (Z.eq_dec (c a b) 0) as [? | Hne]; [ assumption | ].
      assert (c a b < 0) as Hlt by lia.
      pose proof (cf_lt_gt _ _ HC a b Ha Hb Hlt). lia. }
    pose proof (Hties a (or_introl eq_refl)) as Hhead.
    unfold ties in Hhead. simpl in Hhead. rewrite Haa, Hab in Hhead.
    simpl in Hhead. injection Hhead as <- _.
    f_equal. apply IH; auto.
    + intros z Hz. apply Hin. now right.
    + now apply Permutation_cons_inv with a.
    + intros x Hx. pose proof (Hties x (or_intror Hx)) as H.
      unfold ties in *. simpl in H.
      destruct (c x a =? 0); [ now injection H | assumption ].
Qed.

End Unique.

(** On a consistent comparator every conforming sort returns what the
    stable insertion sort returns. *)
Lemma conforming_sort_is_isort {A}
    (sort : (A -> A -> Number) -> list A -> list A) f l :
  sort_conforms sort -> consistent_on (SortCompare f) l ->
  sort f l = isort f l.
Proof.
  intros HS HC.
  pose proof (sort_permutation HS f l) as Hperm.
  apply (stable_sorted_unique (SortCompare f) l HC).
  - intros z Hz. apply (Permutation_in z Hperm Hz).
  - rewrite Hperm. symmetry. apply isort_perm.
  - apply (sort_sorted HS HC).
  - apply (sort_sorted (isort_conforms A) HC).
  - intros x Hx.
    assert (In x l) as Hxl by (apply (Permutation_in x Hperm Hx)).
    rewrite (sort_stable HS HC x Hxl).
    symmetry. apply (sort_stable (isort_conforms A) HC x Hxl).
Qed.

Lemma StronglySorted_filter {A} (R : A -> A -> Prop) (P : A -> bool) l :
  StronglySorted R l -> StronglySorted R (filter P l).
Proof.
  induction 1 as [| a l HS IH HF]; simpl; [ constructor | ].
  destruct (P a); [ | assumption ].
  constructor; [ assumption | ].
  rewrite Forall_forall in *. intros y Hy. apply filter_In in Hy.
  now apply HF.
Qed.

Lemma Permutation_filter' {A} (P : A -> bool) l l' :
  Permutation l l' -> Permutation (filter P l) (filter P l').
Proof.
  induction 1 as [| x l l' _ IH | x y l | l l' l'' _ IH1 _ IH2]; simpl.
  - constructor.
  - destruct (P x); [ now constructor | assumption ].
  - destruct (P x), (P y); try reflexivity. apply perm_swap.
  - now rewrite IH1.
Qed.

Lemma filter_swap {A} (P Q : A -> bool) l :
  filter P (filter Q l) = filter Q (filter P l).
Proof.
  induction l as [| a l IH]; [ reflexivity | ].
  simpl. destruct (P a) eqn:HP, (Q a) eqn:HQ; simpl;
    rewrite ?HP, ?HQ, IH; reflexivity.
Qed.

Lemma StronglySorted_all {A} (R : A -> A -> Prop) l :
  (forall a b, In a l -> In b l -> R a b) -> StronglySorted R l.
Proof.
  induction l as [| a l IH]; intros H; constructor.
  - apply IH. intros; apply H; now right.
  - apply Forall_forall. intros b Hb. apply H; [ now left | now right ].
Qed.

Lemma partition_perm {A} (P : A -> bool) l :
  Permutation (filter (fun a => negb (P a)) l ++ filter P l) l.
Proof.
  induction l as [| a l IH]; [ reflexivity | ].
  simpl. destruct (P a); simpl.
  - rewrite <- Permutation_middle. now constructor.
  - now constructor.
Qed.

Lemma NoDup_map_filter {A B} (g : A -> B) (P : A -> bool) l :
  NoDup (map g l) -> NoDup (map g (filter P l)).
Proof.
  induction l as [| a l IH]; intros H; [ constructor | ].
  simpl in *. inversion H as [| ? ? Hnot Hrest]; subst.
  destruct (P a); [ | now apply IH ].
  simpl. constructor; [ | now apply IH ].
  intros Hin. apply Hnot. apply in_map_iff in Hin.
  destruct Hin as (b & Hb & Hf). apply filter_In in Hf.
  apply in_map_iff. exists b. tauto.
Qed.

(** A conforming sort on a two-valued key: the elements with the key off,
    then those with the key on, each group in its input order. *)
Lemma sort_by_flag {A} (sort : (A -> A -> Number) -> list A -> list A)
    (f : A -> A -> Number) (P : A -> bool) l :
  sort_conforms sort ->
  (forall a b, SortCompare f a b = Z.b2z (P a) - Z.b2z (P b)) ->
  sort f l = (filter (fun a => negb (P a)) l ++ filter P l)%list.
Proof.
  intros HS Hf.
  assert (consistent_on (SortCompare f) l) as HC
      by (apply consistent_on_key with (key := fun a => Z.b2z (P a));
          intros; apply Hf).
  pose proof (sort_permutation HS f l) as Hperm.
  apply (stable_sorted_unique _ _ HC).
  - intros z Hz. apply (Permutation_in z Hperm Hz).
  - rewrite Hperm. symmetry. apply partition_perm.
  - apply (sort_sorted HS HC).
  - apply StronglySorted_app.
    + apply StronglySorted_all. intros a b Ha Hb.
      apply filter_In in Ha, Hb. rewrite Hf.
      destruct (P a), (P b); simpl in *; try lia; destruct Ha, Hb;
        discriminate.
    + apply StronglySorted_all. intros a b Ha Hb.
      apply filter_In in Ha, Hb. rewrite Hf.
      destruct (P a), (P b); simpl in *; try lia; destruct Ha, Hb;
        discriminate.
    + intros a b Ha Hb. apply filter_In in Ha, Hb. rewrite Hf.
      destruct (P a), (P b); simpl in *; try lia; destruct Ha, Hb;
        discriminate.
  - intros x Hx.
    assert (In x l) as Hxl by (apply (Permutation_in x Hperm Hx)).
    rewrite (sort_stable HS HC x Hxl). clear Hx Hxl Hperm HC.
    unfold ties. induction l as [| a l IH]; [ reflexivity | ].
    simpl. rewrite IH. rewrite !filter_app.
    destruct (P a) eqn:HPa; simpl.
    + destruct (Z.eqb_spec (SortCompare f x a) 0) as [Hxa | Hxa];
        [ | reflexivity ].
      rewrite Hf, HPa in Hxa.
      assert (filter (fun y => SortCompare f x y =? 0)
                (filter (fun a0 => negb (P a0)) l) = []) as ->;
        [ | reflexivity ].
      apply filter_none. intros y Hy. apply filter_In in Hy.
      apply Z.eqb_neq. rewrite Hf.
      destruct (P x), (P y); simpl in *; try lia; destruct Hy; discriminate.
    + destruct (SortCompare f x a =? 0); reflexivity.
Qed.

End SortFacts.

(** * More on the deadlines table *)

Module DeadlinesMore.
Import Js ListFacts JsFacts SortFacts Deadlines DeadlinesSpec.

Local Open Scope Z_scope.
Local Open Scope string_scope.

Lemma comparator_desc E field a b :
  SortCompare (comparator E field desc) a b
  = - SortCompare (comparator E field asc) a b.
Proof.
  unfold SortCompare, comparator.
  destruct field; simpl;
    repeat match goal with
    | |- context [getTime E ?t] => destruct (getTime E t)
    end; simpl; try reflexivity.
Qed.

Lemma parses_after_sort E l field dir :
  conforming E ->
  Forall (fun r => key_parses E field r = true) l ->
  Forall (fun r => key_parses E field r = true) (sortDeadlines E l field dir).
Proof.
  intros HE Hl.
  apply (Permutation_Forall
           (Permutation_sym (sortDeadlines_perm E HE l field dir)) Hl).
Qed.

Section OnEngine.
Variable E : Engine.
Hypothesis HE : conforming E.

(** X1: when the timestamp the sort reads parses in every record, the rows
    come out in the order of the sort: keys never decrease from one row to
    any later row when ascending, never increase when descending (for names,
    in the order of the collation). *)
Theorem sortDeadlines_in_order l field dir :
  Forall (fun r => key_parses E field r = true) l ->
  StronglySorted (in_order E field dir) (sortDeadlines E l field dir).
Proof.
  intros Hl.
  pose proof (comparator_consistent E field dir l HE Hl) as HC.
  pose proof (sort_sorted (engine_sort HE _) HC) as HS.
  pose proof (parses_after_sort E l field dir HE Hl) as Hparsed.
  rewrite Forall_forall in Hparsed.
  fold (sortDeadlines E l field dir) in HS.
  revert HS. apply StronglySorted_mono. intros a b Ha Hb Hab.
  destruct (SortField_eqb field by_alert_name) eqn:Hname.
  - destruct field; try discriminate.
    unfold in_order. destruct dir.
    + exact Hab.
    + rewrite comparator_desc in Hab.
      apply (cf_ge_le _ _ (engine_collation HE
               [nullish (alert_name a) ""; nullish (alert_name b) ""]));
        simpl; auto.
      unfold SortCompare, comparator in Hab. simpl in Hab. lia.
  - assert (field <> by_alert_name) as Hf by (intros ->; discriminate).
    destruct (comparator_numeric E field a b Hf (Hparsed a Ha) (Hparsed b Hb))
      as [Hasc Hdesc].
    unfold in_order.
    destruct dir; [ rewrite Hasc in Hab | rewrite Hdesc in Hab ];
      destruct field; try congruence; lia.
Qed.

(** X2: when the timestamp the sort reads parses in every record, the result
    is the one a stable insertion sort with the same comparator computes;
    it does not depend on the sorting algorithm of the engine. *)
Theorem sortDeadlines_is_insertion_sort l field dir :
  Forall (fun r => key_parses E field r = true) l ->
  sortDeadlines E l field dir = isort (comparator E field dir) l.
Proof.
  intros Hl. unfold sortDeadlines.
  apply conforming_sort_is_isort; [ apply (engine_sort HE) | ].
  now apply comparator_consistent.
Qed.

(** X3: sorting rows that are already sorted by the same field and
    direction changes nothing. *)
Theorem sortDeadlines_idempotent l field dir :
  Forall (fun r => key_parses E field r = true) l ->
  sortDeadlines E (sortDeadlines E l field dir) field dir
  = sortDeadlines E l field dir.
Proof.
  intros Hl.
  pose proof (comparator_consistent E field dir l HE Hl) as HC.
  pose proof (sortDeadlines_perm E HE l field dir) as Hperm.
  assert (consistent_on (SortCompare (comparator E field dir))
            (sortDeadlines E l field dir)) as HC'.
  { apply (consistent_on_incl _ l); [ | assumption ].
    intros z Hz. apply (Permutation_in z Hperm Hz). }
  apply (stable_sorted_unique _ _ HC').
  - intros z Hz.
    apply (Permutation_in z (sortDeadlines_perm E HE _ field dir) Hz).
  - apply sortDeadlines_perm, HE.
  - apply (sort_sorted (engine_sort HE _) HC').
  - apply (sort_sorted (engine_sort HE _) HC).
  - intros x Hx.
    apply (sort_stable (engine_sort HE _) HC').
    apply (Permutation_in x (sortDeadlines_perm E HE _ field dir) Hx).
Qed.

(** X4: the component filters and then sorts; filtering the sorted list
    gives the same rows, for the missed filter as for any other. *)
Theorem filter_commutes_with_sort (P : DeadlineResponse -> bool) l field dir :
  Forall (fun r => key_parses E field r = true) l ->
  sortDeadlines E (filter P l) field dir
  = filter P (sortDeadlines E l field dir).
Proof.
  intros Hl.
  pose proof (comparator_consistent E field dir l HE Hl) as HC.
  assert (incl (filter P l) l) as Hsub
      by (intros z Hz; now apply filter_In in Hz).
  pose proof (consistent_on_incl _ l (filter P l) Hsub HC) as HC'.
  pose proof (sortDeadlines_perm E HE (filter P l) field dir) as Hperm.
  apply (stable_sorted_unique _ _ HC).
  - intros z Hz. apply Hsub, (Permutation_in z Hperm Hz).
  - rewrite Hperm. apply Permutation_filter'. symmetry.
    apply sortDeadlines_perm, HE.
  - apply (sort_sorted (engine_sort HE _) HC').
  - apply StronglySorted_filter. apply (sort_sorted (engine_sort HE _) HC).
  - intros x Hx.
    assert (In x (filter P l)) as Hxf by (apply (Permutation_in x Hperm Hx)).
    unfold sortDeadlines.
    rewrite (sort_stable (engine_sort HE _) HC' x Hxf).
    pose proof (sort_stable (engine_sort HE _) HC x (Hsub x Hxf)) as Hst.
    unfold ties in *.
    rewrite (filter_swap _ P (Array_sort E (comparator E field dir) l)).
    rewrite Hst. apply filter_swap.
Qed.

(** X5: sorting by [missed] splits the records in two groups, each in its
    input order: ascending, the records on track and then the missed ones;
    descending, the missed ones and then those on track.  No condition on
    the timestamps. *)
Theorem sort_by_missed_partitions l :
  sortDeadlines E l by_missed asc
  = (filter (fun r => negb (missed r)) l ++ filter missed l)%list /\
  sortDeadlines E l by_missed desc
  = (filter missed l ++ filter (fun r => negb (missed r)) l)%list.
Proof.
  split; unfold sortDeadlines.
  - apply sort_by_flag; [ apply (engine_sort HE) | ].
    intros a b. reflexivity.
  - rewrite (sort_by_flag _ _ (fun r => negb (missed r)));
      [ | apply (engine_sort HE) | ].
    + f_equal. apply filter_ext. intros r. apply negb_involutive.
    + intros a b. unfold SortCompare, comparator. simpl.
      destruct (missed a), (missed b); reflexivity.
Qed.

Lemma ties_desc field x s :
  ties (SortCompare (comparator E field desc)) x s
  = ties (SortCompare (comparator E field asc)) x s.
Proof.
  unfold ties. apply filter_ext. intros y. rewrite comparator_desc.
  destruct (SortCompare (comparator E field asc) x y); reflexivity.
Qed.

Lemma no_ties_class l field x :
  no_ties E field l = true -> In x l ->
  (List.length (ties (SortCompare (comparator E field asc)) x l) <= 1)%nat.
Proof.
  intros Hno Hx. unfold no_ties in Hno.
  rewrite forallb_forall in Hno. now apply Nat.leb_le, Hno.
Qed.

(** X6: when the keys parse and no two records compare equal, the
    descending rows are the ascending rows in reverse. *)
Theorem descending_reverses_ascending l field :
  Forall (fun r => key_parses E field r = true) l ->
  no_ties E field l = true ->
  sortDeadlines E l field desc = rev (sortDeadlines E l field asc).
Proof.
  intros Hl Hno.
  pose proof (comparator_consistent E field asc l HE Hl) as HCa.
  pose proof (comparator_consistent E field desc l HE Hl) as HCd.
  pose proof (sortDeadlines_perm E HE l field desc) as Hpd.
  pose proof (sortDeadlines_perm E HE l field asc) as Hpa.
  apply (stable_sorted_unique _ _ HCd).
  - intros z Hz. apply (Permutation_in z Hpd Hz).
  - rewrite Hpd, <- Permutation_rev. now symmetry.
  - apply (sort_sorted (engine_sort HE _) HCd).
  - pose proof (sort_sorted (engine_sort HE _) HCa) as HS.
    apply StronglySorted_rev in HS.
    fold (sortDeadlines E l field asc) in HS.
    revert HS. apply StronglySorted_mono. intros a b Ha Hb Hba.
    apply in_rev in Ha, Hb.
    apply (Permutation_in _ Hpa) in Ha, Hb.
    rewrite comparator_desc.
    destruct (Z.ltb_spec (SortCompare (comparator E field asc) a b) 0)
      as [Hlt | ?]; [ | lia ].
    pose proof (cf_lt_gt _ _ HCa a b Ha Hb Hlt). lia.
  - intros x Hx.
    assert (In x l) as Hxl by (apply (Permutation_in x Hpd Hx)).
    unfold sortDeadlines at 1.
    rewrite (sort_stable (engine_sort HE _) HCd x Hxl).
    rewrite !ties_desc. unfold ties at 2. rewrite filter_rev.
    fold (ties (SortCompare (comparator E field asc)) x
            (sortDeadlines E l field asc)).
    unfold sortDeadlines.
    rewrite (sort_stable (engine_sort HE _) HCa x Hxl).
    pose proof (no_ties_class l field x Hno Hxl) as Hlen.
    destruct (ties (SortCompare (comparator E field asc)) x l)
      as [| a [| b t]]; simpl in *; try reflexivity; lia.
Qed.

(** X7: a click on a column header rearranges the rows on display and
    neither adds nor drops one; it leaves the missed filter as it is, and
    clicking a header and switching the filter can be done in either
    order. *)
Theorem sort_click_keeps_the_rows st q field :
  Permutation (rows_of (Deadlines E (handleSort field st) q))
    (rows_of (Deadlines E st q)) /\
  showMissedOnly (handleSort field st) = showMissedOnly st /\
  (forall checked,
     handleSort field (setShowMissedOnly checked st)
     = setShowMissedOnly checked (handleSort field st)).
Proof.
  assert (showMissedOnly (handleSort field st) = showMissedOnly st) as Hshow
      by (unfold handleSort; destruct (SortField_eqb _ _); reflexivity).
  split; [ | split; [ exact Hshow | ] ].
  - unfold Deadlines. rewrite Hshow.
    destruct (isLoading q); [ reflexivity | ].
    destruct (data q) as [[| r l] |]; try reflexivity.
    cbn [rows_of].
    rewrite !(sortDeadlines_perm E HE). reflexivity.
  - intros checked. unfold handleSort, setShowMissedOnly. simpl.
    destruct (SortField_eqb (sortField st) field); reflexivity.
Qed.

(** X8: with the filter on and no missed record among fetched records that
    are not empty, the component shows the table with no row, not the
    "no deadlines" message; switching the filter off shows all the records
    again. *)
Theorem filter_can_empty_the_table st l :
  l <> [] -> showMissedOnly st = true ->
  (forall r, In r l -> missed r = false) ->
  Deadlines E st {| data := Some l; isLoading := false |} = Table [] /\
  exists rows,
    Deadlines E (setShowMissedOnly false st)
      {| data := Some l; isLoading := false |} = Table rows /\
    Permutation rows l.
Proof.
  intros Hne Hshow Hnone. unfold Deadlines. simpl. rewrite Hshow.
  destruct l as [| r l]; [ congruence | ].
  split.
  - f_equal. rewrite filter_none by (intros; now apply Hnone).
    apply Permutation_nil. symmetry. apply sortDeadlines_perm, HE.
  - eexists. split; [ reflexivity | ]. apply sortDeadlines_perm, HE.
Qed.

(** X10: the row keys are pairwise distinct whenever the ids of the fetched
    records are; every badge is either red with the label "missed" or green
    with the label "on track"; with the filter on every badge is red. *)
Theorem rows_are_keyed_and_badged st l :
  let view := Deadlines E st {| data := Some l; isLoading := false |} in
  (NoDup (map id l) -> NoDup (map key (body view))) /\
  Forall (fun row =>
            (badge_palette row = "red" /\ badge_label row = "deadlines.missed")
            \/ (badge_palette row = "green"
                /\ badge_label row = "deadlines.onTrack")) (body view) /\
  (showMissedOnly st = true ->
   Forall (fun row =>
             badge_palette row = "red" /\ badge_label row = "deadlines.missed")
     (body view)).
Proof.
  cbv zeta.
  set (view := Deadlines E st {| data := Some l; isLoading := false |}).
  assert (Permutation (rows_of view)
            (if showMissedOnly st then filter missed l else l)) as Hperm.
  { unfold view, Deadlines. simpl. destruct l as [| r l'].
    - simpl. destruct (showMissedOnly st); reflexivity.
    - cbn [rows_of]. apply sortDeadlines_perm, HE. }
  unfold body. split; [ | split ].
  - intros Hnd. rewrite map_map. cbn [renderRow key].
    apply (Permutation_NoDup
             (Permutation_map id (Permutation_sym Hperm))).
    destruct (showMissedOnly st); [ now apply NoDup_map_filter | assumption ].
  - apply Forall_forall. intros row Hrow. apply in_map_iff in Hrow.
    destruct Hrow as (r & <- & _). unfold renderRow. simpl.
    destruct (missed r); auto.
  - intros Hshow. rewrite Hshow in Hperm.
    apply Forall_forall. intros row Hrow. apply in_map_iff in Hrow.
    destruct Hrow as (r & <- & Hr). unfold renderRow. simpl.
    apply (Permutation_in r Hperm) in Hr. apply filter_In in Hr.
    destruct Hr as [_ ->]. auto.
Qed.

End OnEngine.

(** X9: exactly the active column carries a sort indicator.  After a click
    on a header that header carries it and no other does: it is the down
    arrow when the column was active and ascending, the up arrow
    otherwise. *)
Theorem sortIndicator_marks_the_active_column :
  (forall st field, sortIndicator st field = "" <-> field <> sortField st) /\
  (forall st field other,
     other <> field -> sortIndicator (handleSort field st) other = "") /\
  (forall st field,
     sortIndicator (handleSort field st) field
     = if SortField_eqb (sortField st) field
       then match sortDir st with asc => ARROW_DOWN | desc => ARROW_UP end
       else ARROW_UP).
Proof.
  split; [ | split ].
  - intros [f d s] field. unfold sortIndicator. simpl.
    destruct f, field, d; simpl; split; intros H;
      try reflexivity; try discriminate; try congruence.
  - intros [f d s] field other Hne. unfold sortIndicator, handleSort. simpl.
    destruct f, field, other, d; simpl; try reflexivity; congruence.
  - intros [f d s] field. unfold sortIndicator, handleSort. simpl.
    destruct f, field, d; reflexivity.
Qed.

(** ** The theorems at work *)

Lemma parsed_dated :
  Forall (fun r => key_parses v8_short by_deadline_time r = true) dated.
Proof. repeat constructor. Qed.

Lemma sortDeadlines_in_order_witness :
  (conforming reference /\
   Forall (fun r => key_parses reference by_deadline_time r = true) dated) /\
  StronglySorted (in_order reference by_deadline_time desc)
    (sortDeadlines reference dated by_deadline_time desc) /\
  map id (sortDeadlines reference dated by_deadline_time desc) = [1; 2; 3; 4].
Proof.
  split; [ split; [ exact reference_conforming | exact parsed_dated ] | ].
  split; [ | reflexivity ].
  exact (sortDeadlines_in_order reference reference_conforming dated
           by_deadline_time desc parsed_dated).
Defined.

Lemma sortDeadlines_is_insertion_sort_witness :
  (conforming v8_short /\
   Forall (fun r => key_parses v8_short by_deadline_time r = true) dated) /\
  sortDeadlines v8_short dated by_deadline_time asc
  = isort (comparator v8_short by_deadline_time asc) dated.
Proof.
  split; [ split; [ exact v8_short_conforming | exact parsed_dated ] | ].
  exact (sortDeadlines_is_insertion_sort v8_short v8_short_conforming dated
           by_deadline_time asc parsed_dated).
Defined.

Lemma sortDeadlines_idempotent_witness :
  (conforming v8_short /\
   Forall (fun r => key_parses v8_short by_deadline_time r = true) dated) /\
  sortDeadlines v8_short
    (sortDeadlines v8_short dated by_deadline_time asc) by_deadline_time asc
  = sortDeadlines v8_short dated by_deadline_time asc.
Proof.
  split; [ split; [ exact v8_short_conforming | exact parsed_dated ] | ].
  exact (sortDeadlines_idempotent v8_short v8_short_conforming dated
           by_deadline_time asc parsed_dated).
Defined.

Lemma filter_commutes_with_sort_witness :
  (conforming v8_short /\
   Forall (fun r => key_parses v8_short by_deadline_time r = true) dated) /\
  sortDeadlines v8_short (filter missed dated) by_deadline_time desc
  = filter missed (sortDeadlines v8_short dated by_deadline_time desc).
Proof.
  split; [ split; [ exact v8_short_conforming | exact parsed_dated ] | ].
  exact (filter_commutes_with_sort v8_short v8_short_conforming missed dated
           by_deadline_time desc parsed_dated).
Defined.

Lemma sort_by_missed_partitions_witness :
  conforming v8_short /\
  map id (sortDeadlines v8_short dated by_missed asc) = [1; 4; 2; 3] /\
  map id (sortDeadlines v8_short dated by_missed desc) = [2; 3; 1; 4].
Proof.
  destruct (sort_by_missed_partitions v8_short v8_short_conforming dated)
    as [Hasc Hdesc].
  split; [ exact v8_short_conforming | ].
  split; [ rewrite Hasc | rewrite Hdesc ]; reflexivity.
Defined.

Lemma descending_reverses_ascending_witness :
  (conforming v8_short /\
   Forall (fun r => key_parses v8_short by_deadline_time r = true) spread /\
   no_ties v8_short by_deadline_time spread = true) /\
  sortDeadlines v8_short spread by_deadline_time desc
  = rev (sortDeadlines v8_short spread by_deadline_time asc).
Proof.
  assert (Forall (fun r => key_parses v8_short by_deadline_time r = true)
            spread) as Hparsed by (repeat constructor).
  split; [ split; [ exact v8_short_conforming | split;
                    [ exact Hparsed | reflexivity ] ] | ].
  exact (descending_reverses_ascending v8_short v8_short_conforming spread
           by_deadline_time Hparsed eq_refl).
Defined.

Lemma sort_click_keeps_the_rows_witness :
  let q := {| data := Some dated; isLoading := false |} in
  conforming reference /\
  Permutation (rows_of (Deadlines reference (handleSort by_missed initial) q))
    (rows_of (Deadlines reference initial q)) /\
  handleSort by_missed (setShowMissedOnly true initial)
  = setShowMissedOnly true (handleSort by_missed initial).
Proof.
  cbv zeta.
  destruct (sort_click_keeps_the_rows reference reference_conforming initial
              {| data := Some dated; isLoading := false |} by_missed)
    as (Hperm & _ & Hswap).
  split; [ exact reference_conforming | ].
  split; [ exact Hperm | exact (Hswap true) ].
Defined.

Lemma filter_can_empty_the_table_witness :
  let st := setShowMissedOnly true initial in
  (conforming reference /\ [due; bare] <> [] /\ showMissedOnly st = true /\
   (forall r, In r [due; bare] -> missed r = false)) /\
  Deadlines reference st {| data := Some [due; bare]; isLoading := false |}
  = Table [] /\
  exists rows,
    Deadlines reference (setShowMissedOnly false st)
      {| data := Some [due; bare]; isLoading := false |} = Table rows /\
    Permutation rows [due; bare].
Proof.
  cbv zeta.
  assert ([due; bare] <> []) as Hne by discriminate.
  assert (forall r, In r [due; bare] -> missed r = false) as Hnone
      by (intros r [<- | [<- | []]]; reflexivity).
  split; [ split; [ exact reference_conforming | split;
                    [ exact Hne | split; [ reflexivity | exact Hnone ] ] ] | ].
  exact (filter_can_empty_the_table reference reference_conforming
           (setShowMissedOnly true initial) [due; bare] Hne eq_refl Hnone).
Defined.

Lemma rows_are_keyed_and_badged_witness :
  let view := Deadlines reference (setShowMissedOnly true initial)
                {| data := Some dated; isLoading := false |} in
  (conforming reference /\ NoDup (map id dated)) /\
  NoDup (map key (body view)) /\
  Forall (fun row =>
            badge_palette row = "red" /\ badge_label row = "deadlines.missed")
    (body view) /\
  map key (body view) = [2; 3].
Proof.
  cbv zeta.
  assert (NoDup (map id dated)) as Hnd.
  { simpl. repeat constructor; simpl; intuition discriminate. }
  destruct (rows_are_keyed_and_badged reference reference_conforming
              (setShowMissedOnly true initial) dated) as (Hkeys & _ & Hred).
  split; [ split; [ exact reference_conforming | exact Hnd ] | ].
  split; [ exact (Hkeys Hnd) | ].
  split; [ exact (Hred eq_refl) | reflexivity ].
Defined.

Lemma sortIndicator_marks_the_active_column_witness :
  by_missed <> sortField initial /\
  sortIndicator initial by_missed = "" /\
  sortIndicator (handleSort by_created_at initial) by_missed = "" /\
  sortIndicator (handleSort by_deadline_time initial) by_deadline_time
  = ARROW_DOWN.
Proof.
  destruct sortIndicator_marks_the_active_column as (Hnone & Hother & Hown).
  assert (by_missed <> sortField initial) as Hne by discriminate.
  assert (by_missed <> by_created_at) as Hne' by discriminate.
  split; [ exact Hne | ].
  split; [ exact (proj2 (Hnone initial by_missed) Hne) | ].
  split; [ exact (Hother initial by_created_at by_missed Hne') | ].
  exact (Hown initial by_deadline_time).
Defined.

End DeadlinesMore.

(** * More on the grid bar *)

Module BarMore.
Import Bar.

Local Open Scope float_scope.
Local Open Scope string_scope.

(** With a positive [max], a duration of zero gives the height zero, and
    the gap above it is exactly 4. *)
Lemma zero_duration (d max : float) :
  (d =? 0)%float = true -> (0 <? max)%float = true ->
  (d / max * 100 + 4 = 4)%float.
Proof.
  intros Hd Hmax. rewrite FloatAxioms.eqb_spec in Hd. rewrite ltb_spec in Hmax.
  apply Prim2SF_inj. rewrite add_spec, mul_spec, div_spec.
  change (Prim2SF 0) with (S754_zero false) in *.
  change (Prim2SF 100) with (S754_finite false 7036874417766400 (-46)).
  change (Prim2SF 4) with (S754_finite false 4503599627370496 (-50)).
  destruct (Prim2SF d) as [sd | sd | | sd md ed];
    [ | destruct sd; discriminate Hd | discriminate Hd
      | destruct sd; discriminate Hd ].
  destruct (Prim2SF max) as [s | s | | s m e];
    [ discriminate Hmax | | discriminate Hmax | ];
    (destruct s; [ discriminate Hmax | ]); destruct sd; reflexivity.
Qed.

(** X11: the deadline icon is rendered for a run that missed its deadline
    and the failed icon for a failed run, the deadline icon first.  The
    deadline icon sits [ICON_HEIGHT_PX] above the failed icon when the run
    failed and takes its place otherwise.  With [max > 0] the failed icon
    sits [ICON_GAP_PX] above the height handed to the bar.  When [max] is not
    greater than zero (zero, negative or NaN), whatever the duration, and
    when the duration is zero, whatever [max], the offsets are exactly 4 for
    the failed icon and 20 or 4 for the deadline icon. *)
Theorem icons_stack_above_the_bar toLowerCase max run :
  let f := failedIconBottom max run in
  let d := deadlineIconBottom toLowerCase max run in
  icons toLowerCase max run
  = ((if hasMissedDeadline run then [(DeadlineIcon, d)] else [])
     ++ (if isFailed toLowerCase run then [(FailedIcon, f)] else []))%list /\
  (isFailed toLowerCase run = true -> d = (f + 16)%float) /\
  (isFailed toLowerCase run = false -> d = f) /\
  ((0 <? max)%float = true ->
   f = (gridButtonHeight max (duration run) + 4)%float) /\
  ((0 <? max)%float = false \/ (duration run =? 0)%float = true ->
   f = 4%float /\
   d = if isFailed toLowerCase run then 20%float else 4%float).
Proof.
  cbv zeta.
  assert ((0 <? max)%float = false \/ (duration run =? 0)%float = true ->
          failedIconBottom max run = 4%float) as Hfour.
  { unfold failedIconBottom, barHeightPx, BAR_HEIGHT, ICON_GAP_PX.
    intros [Hmax | Hzero].
    - rewrite Hmax. reflexivity.
    - destruct (0 <? max)%float eqn:Hmax; [ | reflexivity ].
      now apply zero_duration. }
  unfold icons, deadlineIconBottom.
  split; [ reflexivity | ].
  split; [ intros ->; reflexivity | ].
  split; [ intros ->; reflexivity | ].
  split.
  - unfold failedIconBottom, barHeightPx, gridButtonHeight.
    intros ->. reflexivity.
  - intros H. rewrite (Hfour H). split; [ reflexivity | ].
    destruct (isFailed toLowerCase run); reflexivity.
Qed.

Lemma icons_stack_above_the_bar_witness :
  let run := {| run_id := "manual__1"; state := Some "FAILED";
                duration := 30; has_missed_deadline := Some true |} in
  let idle := {| run_id := "manual__2"; state := Some "failed";
                 duration := 0; has_missed_deadline := None |} in
  (isFailed ascii_lower run = true /\ (0 <? 60)%float = true
   /\ (0 <? 0)%float = false /\ (duration idle =? 0)%float = true) /\
  icons ascii_lower 60 run = [(DeadlineIcon, 70%float); (FailedIcon, 54%float)]
  /\ icons ascii_lower 0 run
     = [(DeadlineIcon, 20%float); (FailedIcon, 4%float)]
  /\ icons ascii_lower 60 idle = [(FailedIcon, 4%float)].
Proof.
  cbv zeta.
  split; [ repeat split | ].
  destruct (icons_stack_above_the_bar ascii_lower 60
              {| run_id := "manual__1"; state := Some "FAILED";
                 duration := 30; has_missed_deadline := Some true |})
    as (Hicons & Hfailed & _ & Hpos & _).
  destruct (icons_stack_above_the_bar ascii_lower 0
              {| run_id := "manual__1"; state := Some "FAILED";
                 duration := 30; has_missed_deadline := Some true |})
    as (Hicons0 & _ & _ & _ & Hzero).
  destruct (icons_stack_above_the_bar ascii_lower 60
              {| run_id := "manual__2"; state := Some "failed";
                 duration := 0; has_missed_deadline := None |})
    as (Hidle & _ & _ & _ & Hnone).
  split; [ | split ].
  - rewrite Hicons, (Hfailed eq_refl), (Hpos eq_refl). reflexivity.
  - rewrite Hicons0.
    destruct (Hzero (or_introl eq_refl)) as [-> ->]. reflexivity.
  - rewrite Hidle.
    destruct (Hnone (or_intror eq_refl)) as [-> _]. reflexivity.
Defined.

Lemma append_cancel_l (a b c : string) : a ++ b = a ++ c -> b = c.
Proof.
  induction a as [| ch a IH]; simpl; intros H; [ assumption | ].
  injection H as H. now apply IH.
Qed.

Lemma length_append (a b : string) :
  String.length (a ++ b) = (String.length a + String.length b)%nat.
Proof. induction a as [| ch a IH]; simpl; [ reflexivity | now rewrite IH ]. Qed.

Lemma append_cancel_r (a b c : string) : a ++ c = b ++ c -> a = b.
Proof.
  revert b. induction a as [| ch a IH]; intros [| ch' b] H.
  - reflexivity.
  - apply (f_equal String.length) in H. simpl in H.
    rewrite length_append in H. lia.
  - apply (f_equal String.length) in H. simpl in H.
    rewrite length_append in H. lia.
  - simpl in H. injection H as -> H. f_equal. now apply IH.
Qed.

(** X14: both icons lead to the run they stand on, and both hand on the
    serialisation of the current search parameters; the deadline icon's path
    is the failed icon's path followed by "/deadlines".  Within one dag, the
    icons of two runs lead to the same path only when the runs have the same
    id, whatever the search parameters. *)
Theorem icon_clicks_lead_to_the_run (URLSearchParams : Type)
    (toString : URLSearchParams -> string) dagId searchParams run :
  search (handleFailedIconClick toString dagId searchParams run)
  = toString searchParams /\
  search (handleDeadlineIconClick toString dagId searchParams run)
  = toString searchParams /\
  pathname (handleDeadlineIconClick toString dagId searchParams run)
  = pathname (handleFailedIconClick toString dagId searchParams run)
    ++ "/deadlines" /\
  (forall searchParams' run',
     pathname (handleFailedIconClick toString dagId searchParams run)
     = pathname (handleFailedIconClick toString dagId searchParams' run') ->
     run_id run = run_id run') /\
  (forall searchParams' run',
     pathname (handleDeadlineIconClick toString dagId searchParams run)
     = pathname (handleDeadlineIconClick toString dagId searchParams' run') ->
     run_id run = run_id run').
Proof.
  assert (forall a b c : string, (a ++ b) ++ c = a ++ b ++ c) as Hassoc
      by (intros a b c; induction a as [| ch a IH]; simpl;
          [ reflexivity | now rewrite IH ]).
  unfold handleFailedIconClick, handleDeadlineIconClick.
  cbn [pathname search].
  split; [ reflexivity | split; [ reflexivity | split; [ | split ] ] ].
  - rewrite !Hassoc. reflexivity.
  - intros _ run' H.
    apply (append_cancel_l "/dags/"), (append_cancel_l dagId),
      (append_cancel_l "/runs/") in H.
    exact H.
  - intros _ run' H.
    apply (append_cancel_l "/dags/"), (append_cancel_l dagId),
      (append_cancel_l "/runs/"), append_cancel_r in H.
    exact H.
Qed.

Lemma icon_clicks_lead_to_the_run_witness :
  let first := {| run_id := "manual__1"; state := None; duration := 1;
                  has_missed_deadline := None |} in
  let second := {| run_id := "manual__1"; state := Some "failed";
                   duration := 2; has_missed_deadline := Some true |} in
  pathname (handleDeadlineIconClick urlencoded "etl" [("q", "a b")] first)
  = pathname (handleDeadlineIconClick urlencoded "etl" [] second) /\
  run_id first = run_id second /\
  handleDeadlineIconClick urlencoded "etl" [("q", "a b"); ("limit", "5")] first
  = {| pathname := "/dags/etl/runs/manual__1/deadlines";
       search := "q=a+b&limit=5" |}.
Proof.
  cbv zeta.
  assert (pathname
            (handleDeadlineIconClick urlencoded "etl" [("q", "a b")]
               {| run_id := "manual__1"; state := None; duration := 1;
                  has_missed_deadline := None |})
          = pathname
              (handleDeadlineIconClick urlencoded "etl" []
                 {| run_id := "manual__1"; state := Some "failed";
                    duration := 2; has_missed_deadline := Some true |}))
    as Hsame by reflexivity.
  destruct (icon_clicks_lead_to_the_run _ urlencoded "etl" [("q", "a b")]
              {| run_id := "manual__1"; state := None; duration := 1;
                 has_missed_deadline := None |})
    as (_ & _ & _ & _ & Hinj).
  split; [ exact Hsame | ].
  split; [ exact (Hinj _ _ Hsame) | reflexivity ].
Defined.

(** X15: a selected bar shows the emphasized background whether hovered or
    not.  Of two bars with different run ids at most one is hovered; after
    the pointer enters a bar exactly the bars of that run are hovered, and
    after it leaves none is. *)
Theorem hover_marks_one_run runId hovered run other :
  (isSelected runId run = true ->
   bg runId hovered run = Some "brand.emphasized") /\
  (run_id run <> run_id other ->
   isHovered hovered run = true -> isHovered hovered other = false) /\
  (isHovered (handleMouseEnter run hovered) other = true
   <-> run_id other = run_id run) /\
  isHovered (handleMouseLeave (handleMouseEnter run hovered)) other = false /\
  (isSelected runId other = false ->
   bg runId (handleMouseLeave hovered) other = None).
Proof.
  unfold bg, isHovered, handleMouseEnter, handleMouseLeave.
  split; [ | split; [ | split; [ | split ] ] ].
  - intros ->. reflexivity.
  - intros Hne. destruct hovered as [h |]; [ | discriminate ].
    intros H%String.eqb_eq. subst h. apply String.eqb_neq. exact Hne.
  - rewrite String.eqb_eq. split; intros H; now symmetry.
  - reflexivity.
  - intros ->. reflexivity.
Qed.

Lemma hover_marks_one_run_witness :
  let first := {| run_id := "manual__1"; state := None; duration := 1;
                  has_missed_deadline := None |} in
  let second := {| run_id := "manual__2"; state := None; duration := 2;
                   has_missed_deadline := None |} in
  (run_id first <> run_id second /\
   isHovered (Some "manual__1") first = true /\
   isSelected (Some "manual__1") first = true) /\
  isHovered (Some "manual__1") second = false /\
  bg (Some "manual__1") (Some "manual__1") first = Some "brand.emphasized".
Proof.
  cbv zeta.
  assert ("manual__1" <> "manual__2") as Hne by discriminate.
  destruct (hover_marks_one_run (Some "manual__1") (Some "manual__1")
              {| run_id := "manual__1"; state := None; duration := 1;
                 has_missed_deadline := None |}
              {| run_id := "manual__2"; state := None; duration := 2;
                 has_missed_deadline := None |})
    as (Hsel & Hone & _).
  split; [ split; [ exact Hne | split; reflexivity ] | ].
  split; [ exact (Hone Hne eq_refl) | exact (Hsel eq_refl) ].
Defined.

End BarMore.

(** * More on the failed-icon plugin *)

Module FailedIconPluginMore.
Import FailedIconPlugin FailedIconPluginSpec.

Local Open Scope float_scope.
Local Open Scope string_scope.

Lemma found_app elements l1 l2 :
  found elements (l1 ++ l2)
  = (found elements l1 ++ found elements l2)%list.
Proof. unfold found. apply flat_map_app. Qed.

Section OnCanvas.
Variable Style : Type.
Variable parseColor : string -> option Style.

(** X12: painting the failed indices in two calls, one after the other, is
    painting them in one call.  A second call with the same indices paints
    the same marks again and leaves the drawing state, the saved states, the
    path and the datasets as the first call left them. *)
Theorem hook_composes l1 l2 color (chart : Chart Style) :
  afterDatasetsDraw parseColor (l1 ++ l2) color chart
  = afterDatasetsDraw parseColor l2 color
      (afterDatasetsDraw parseColor l1 color chart) /\
  let once := afterDatasetsDraw parseColor l1 color chart in
  let twice := afterDatasetsDraw parseColor l1 color once in
  state (ctx twice) = state (ctx once) /\
  saved (ctx twice) = saved (ctx once) /\
  path (ctx twice) = path (ctx once) /\
  metas twice = metas once /\
  bitmap (ctx twice)
  = (bitmap (ctx once)
     ++ flat_map (marks parseColor color (state (ctx chart)))
          (found (getDatasetMeta chart 1) l1))%list.
Proof.
  assert (forall l,
            getDatasetMeta (afterDatasetsDraw parseColor l color chart) 1
            = getDatasetMeta chart 1) as Hmeta
      by (intros l; rewrite afterDatasetsDraw_effect; reflexivity).
  split.
  - rewrite (afterDatasetsDraw_effect _ _ l2), Hmeta.
    rewrite !afterDatasetsDraw_effect. cbn [ctx metas state saved path bitmap].
    rewrite found_app, flat_map_app, app_assoc.
    unfold last_path. rewrite fold_left_app. reflexivity.
  - cbv zeta. rewrite (afterDatasetsDraw_effect _ _ l1 color
                         (afterDatasetsDraw parseColor l1 color chart)), Hmeta.
    rewrite !afterDatasetsDraw_effect. cbn [ctx metas state saved path bitmap].
    repeat split.
    unfold last_path.
    destruct (rev (found (getDatasetMeta chart 1) l1)) as [| e t] eqn:Hrev.
    + apply (f_equal (@rev _)) in Hrev. rewrite rev_involutive in Hrev.
      rewrite Hrev. reflexivity.
    + apply (f_equal (@rev _)) in Hrev. rewrite rev_involutive in Hrev.
      rewrite Hrev. simpl. rewrite !fold_left_app. reflexivity.
Qed.

(** X13: for every failed index with an element at (x, y) whose "!" has a
    finite anchor, the bitmap receives, one after the other, the filled
    triangle, its outline of width 1 and a "!" in bold 8.4px sans-serif,
    centred on the axis of the triangle.  When the colour of the icon
    parses, the triangle is filled and outlined in it; when it does not, the
    triangle is filled in the fill style and outlined in the stroke style
    the context had before the call.  The "!" is white either way. *)
Theorem icon_is_painted_in_three_marks
    failedIndices color (chart : Chart Style) index element white :
  In index failedIndices ->
  element_at (getDatasetMeta chart 1) index = Some element ->
  glyph_painted element = true ->
  parseColor "white" = Some white ->
  exists filled outlined before after,
    bitmap (ctx (afterDatasetsDraw parseColor failedIndices color chart))
    = (before
       ++ [ Fill (triangle element) filled;
            Stroke (triangle element) outlined 1;
            FillText "!" (x element) (y element - 4 - 14 + 14 * 0.55) white
              "bold 8.4px sans-serif" "center" "middle" ]
       ++ after)%list /\
    (forall style, parseColor color = Some style ->
       filled = style /\ outlined = style) /\
    (parseColor color = None ->
       filled = fillStyle (state (ctx chart)) /\
       outlined = strokeStyle (state (ctx chart))).
Proof.
  intros Hin He Hglyph Hwhite. rewrite afterDatasetsDraw_effect.
  cbn [ctx bitmap].
  pose proof (found_In _ _ _ _ Hin He) as Hfound.
  apply in_split in Hfound. destruct Hfound as (f1 & f2 & ->).
  exists (assigned parseColor color (fillStyle (state (ctx chart)))),
    (assigned parseColor color (strokeStyle (state (ctx chart)))),
    (bitmap (ctx chart)
     ++ flat_map (marks parseColor color (state (ctx chart))) f1)%list,
    (flat_map (marks parseColor color (state (ctx chart))) f2).
  split.
  - rewrite flat_map_app. cbn [flat_map]. unfold marks at 2.
    rewrite Hglyph. unfold assigned at 3. rewrite Hwhite.
    rewrite <- !app_assoc. reflexivity.
  - unfold assigned. split.
    + intros style ->. split; reflexivity.
    + intros ->. split; reflexivity.
Qed.

End OnCanvas.

Lemma icon_is_painted_in_three_marks_witness :
  let element := {| x := 20; y := 65 |} in
  (In 1%Z [7%Z; 1%Z] /\
   element_at (getDatasetMeta three_points 1) 1 = Some element /\
   glyph_painted element = true /\
   css_color "white" = Some (255, 255, 255)%N /\
   css_color "#c00" = Some (204, 0, 0)%N /\
   css_color "crimson red" = None) /\
  (exists before after,
     bitmap (ctx (afterDatasetsDraw css_color [7%Z; 1%Z] "#c00" three_points))
     = (before
        ++ [ Fill (triangle element) (204, 0, 0)%N;
             Stroke (triangle element) (204, 0, 0)%N 1;
             FillText "!" 20 54.7 (255, 255, 255)%N "bold 8.4px sans-serif"
               "center" "middle" ]
        ++ after)%list) /\
  (exists before after,
     bitmap (ctx (afterDatasetsDraw css_color [7%Z; 1%Z] "crimson red"
                    three_points))
     = (before
        ++ [ Fill (triangle element) (0, 0, 0)%N;
             Stroke (triangle element) (0, 0, 0)%N 1;
             FillText "!" 20 54.7 (255, 255, 255)%N "bold 8.4px sans-serif"
               "center" "middle" ]
        ++ after)%list).
Proof.
  cbv zeta.
  assert (In 1%Z [7%Z; 1%Z]) as Hin by (right; now left).
  split; [ repeat split; exact Hin | ].
  split.
  - destruct (icon_is_painted_in_three_marks _ css_color [7%Z; 1%Z] "#c00"
                three_points 1 {| x := 20; y := 65 |} (255, 255, 255)%N
                Hin eq_refl eq_refl eq_refl)
      as (filled & outlined & before & after & Hbitmap & Hvalid & _).
    destruct (Hvalid _ eq_refl) as [Hf Ho]. subst filled outlined.
    exists before, after. exact Hbitmap.
  - destruct (icon_is_painted_in_three_marks _ css_color [7%Z; 1%Z]
                "crimson red" three_points 1 {| x := 20; y := 65 |}
                (255, 255, 255)%N Hin eq_refl eq_refl eq_refl)
      as (filled & outlined & before & after & Hbitmap & _ & Hinvalid).
    destruct (Hinvalid eq_refl) as [Hf Ho]. subst filled outlined.
    exists before, after. exact Hbitmap.
Defined.

End FailedIconPluginMore.
